(** * The connection loop of replicache ([src/connection-loop.ts])

    A shallow embedding of the adaptive delay computation
    ([computeDelayAndUpdateDurations], [median], [didLastSendRequestFail],
    [recovered]) and of the [ConnectionLoop] class, whose asynchronous [run]
    loop is modelled as a transition system over its suspension points.

    Numbers.  Durations are differences of [Date.now()] readings, that is
    integers (milliseconds); they are modelled in [Z], as are the delay and
    the number of connections.  The only value of the code that need not be
    an integer is the median of an even number of durations, a half-integer,
    which is kept as an exact rational in [Q].  JavaScript doubles represent
    all of these exactly as long as the magnitudes stay below 2^52, and
    print integers below 10^21 as plain decimal numerals, which covers any
    duration a clock can produce.

    Asynchrony.  JavaScript runs one continuation at a time.  A state of
    the model is a state of the loop between two continuations, and an event
    is one continuation run to its next [await] (or to its end), a call of
    a public method, or the passing of time.  A continuation may run at any
    time after the promise it awaits has settled, so the model has all the
    interleavings of the program, and possibly more.  The clock does not go
    backwards, the members of the delegate return the same value at each
    call, and the delegate does not call back into the loop. *)

From Stdlib Require Import ZArith List String Ascii QArith Lia Bool.
From Stdlib Require Import DecimalString Sorting.Sorted Sorting.Permutation.
From Stdlib Require Import DecimalZ DecimalPos.
Import ListNotations.
Open Scope Z_scope.

(** ** JavaScript primitives used by the source *)

Module JS.

(** [String(n)] for an integer [n]: its decimal numeral, with a leading
    minus sign for negative numbers. *)
Definition toString (n : Z) : string := NilZero.string_of_int (Z.to_int n).

(** The default comparison of [Array.prototype.sort]: the elements are
    converted to strings and the strings are compared by code units. *)
Definition sortCompareLe (x y : Z) : bool :=
  String.leb (toString x) (toString y).

Fixpoint insert (x : Z) (l : list Z) : list Z :=
  match l with
  | [] => [x]
  | y :: l' => if sortCompareLe x y then x :: l else y :: insert x l'
  end.

(** [values.sort()] with no comparator: the elements, arranged in the
    order of their strings (lemmas [sort_permutation] and [sort_sorted]).
    The sort of the language is stable, and so is this one. *)
Fixpoint sort (l : list Z) : list Z :=
  match l with
  | [] => []
  | x :: l' => insert x (sort l')
  end.

(** [a[i]]: [None] stands for [undefined], the value of an index out of
    range. *)
Definition at_ {A : Type} (a : list A) (i : Z) : option A :=
  if i <? 0 then None else nth_error a (Z.to_nat i).

(** [a.shift()]: removes the first element. *)
Definition shift {A : Type} (a : list A) : list A := tl a.

(** [a.push(x)]. *)
Definition push {A : Type} (a : list A) (x : A) : list A := a ++ [x].

(** ToInt32: reduction modulo 2^32 into [-2^31, 2^31). *)
Definition toInt32 (z : Z) : Z := (z + 2 ^ 31) mod 2 ^ 32 - 2 ^ 31.

(** Truncation of a rational towards zero. *)
Definition truncate (q : Q) : Z := Z.quot (Qnum q) (Z.pos (Qden q)).

(** [(x / m) | 0], where [None] stands for [NaN].  A division by zero gives
    an infinity or [NaN], and ToInt32 maps all three of them to 0. *)
Definition divToInt32 (x : option Q) (m : Z) : Z :=
  match x with
  | None => 0
  | Some q => if m =? 0 then 0 else toInt32 (truncate (q / inject_Z m))
  end.

End JS.

(** ** The data model *)

Definition DEBOUNCE_DELAY : Z := 10.
Definition MIN_DELAY : Z := 30.
Definition MAX_DELAY : Z := 60000.
Definition MAX_CONNECTIONS : Z := 3.

Record SendRecord : Type := mkSendRecord { duration : Z; ok : bool }.

(** Number of connections to remember when computing the new delay. *)
Definition CONNECTION_MEMORY_COUNT : Z := 9.

Definition length_ {A : Type} (a : list A) : Z := Z.of_nat (List.length a).

(** ** The adaptive delay *)

Definition median (values : list Z) : option Q :=
  let values := JS.sort values in
  let length := length_ values in
  let half := Z.shiftr length 1 in
  if length mod 2 =? 1 then option_map inject_Z (JS.at_ values half)
  else
    match JS.at_ values (half - 1), JS.at_ values half with
    | Some a, Some b => Some (inject_Z (a + b) / 2)%Q
    | _, _ => None
    end.

Definition didLastSendRequestFail (sendRecords : list SendRecord) : bool :=
  (length_ sendRecords >? 0) &&
  match JS.at_ sendRecords (length_ sendRecords - 1) with
  | Some r => negb (ok r)
  | None => false
  end.

Definition recovered (sendRecords : list SendRecord) : bool :=
  (length_ sendRecords >? 1) &&
  match JS.at_ sendRecords (length_ sendRecords - 2),
        JS.at_ sendRecords (length_ sendRecords - 1) with
  | Some p, Some l => negb (ok p) && ok l
  | _, _ => false
  end.

(** The function returns the new delay and mutates [sendRecords] in place:
    the result is the pair of the delay and the array after the call.  The
    two [None] branches stand for reads of an index out of range; lemma
    [at_last] and [at_previous] show that they are never taken. *)
Definition computeDelayAndUpdateDurations
    (delay maxConnections : Z) (sendRecords : list SendRecord)
    : Z * list SendRecord :=
  let length := length_ sendRecords in
  if length =? 0 then (delay, sendRecords)
  else
    match JS.at_ sendRecords (length_ sendRecords - 1) with
    | None => (delay, sendRecords)
    | Some last =>
        if negb (ok last) then (Z.min MAX_DELAY (delay * 2), sendRecords)
        else if length =? 1 then
          (JS.divToInt32 (Some (inject_Z (duration last))) maxConnections,
           sendRecords)
        else
          match JS.at_ sendRecords (length_ sendRecords - 2) with
          | None => (delay, sendRecords)
          | Some previous =>
              let sendRecords :=
                if length_ sendRecords >? CONNECTION_MEMORY_COUNT
                then JS.shift sendRecords else sendRecords in
              if ok last && negb (ok previous) then (MIN_DELAY, sendRecords)
              else
                let med :=
                  median (map duration (filter ok sendRecords)) in
                (JS.divToInt32 med maxConnections, sendRecords)
          end
    end.

(** ** The [ConnectionLoop] class

    The delegate.  Its optional members are [option]s; [debounceDelay] and
    [watchdogTimer] are functions without arguments in the source and are
    given here by the value they return ([None] for a watchdog that is
    absent or returns [null]). *)
Record ConnectionLoopDelegate : Type := mkDelegate {
  debounceDelay : option Z;
  maxConnections : option Z;
  watchdogTimer : option Z
}.

(** Modelled from the spec: [sleep] ([./sleep.js] is not part of the
    sources), a timer that is a suspension point of the loop.  A sleep
    started at time [now] for [ms] milliseconds is given by the time at which
    it ends; a timer cannot end before it is started. *)
Definition sleep (now ms : Z) : Z := now + Z.max 0 ms.

(** Modelled from the spec: [resolver] ([./resolver.js] is not part of the
    sources), a one-shot notification.  A resolver is given by whether it
    has been resolved; resolving it again changes nothing and a fresh one is
    unresolved. *)
Definition resolver : bool := false.
Definition resolve (r : bool) : bool := true.

(** The [await] at which [run] is suspended. *)
Inductive Await : Type :=
| AwaitPending (watchdog : option Z)
    (** [await Promise.race(races)]; the end of [sleep(t)], if it races *)
| AwaitDebounce (wake : Z)
    (** [await sleep(debounceDelay())] *)
| AwaitConnection (resolved : bool)
    (** [await this._waitUntilAvailableConnection()] *)
| AwaitPace (wake : Z) (recoverResolved : bool)
    (** [await Promise.race([sleep(..), recoverResolver.promise])] *)
| Returned.
    (** [run] has left its loop *)

(** The state of a connection loop between two turns of the event loop: the
    fields of the object, the local variables of [run], the [await] at which
    [run] stands, the start times of the sends whose [invokeSend] has not
    settled yet, the clock, and the times of all calls of [invokeSend] so
    far (most recent first). *)
Record Loop : Type := mkLoop {
  closed : bool;
  pendingResolver : bool;
  waitingConnectionResolve : bool;
  sendRecords : list SendRecord;
  delay : Z;
  lastSendTime : Z;
  counter : Z;
  awaiting : Await;
  inflight : list Z;
  now : Z;
  invocations : list Z
}.

Definition set_closed (v : bool) (s : Loop) : Loop :=
  mkLoop v (pendingResolver s) (waitingConnectionResolve s) (sendRecords s)
    (delay s) (lastSendTime s) (counter s) (awaiting s) (inflight s) (now s)
    (invocations s).
Definition set_pendingResolver (v : bool) (s : Loop) : Loop :=
  mkLoop (closed s) v (waitingConnectionResolve s) (sendRecords s)
    (delay s) (lastSendTime s) (counter s) (awaiting s) (inflight s) (now s)
    (invocations s).
Definition set_waitingConnectionResolve (v : bool) (s : Loop) : Loop :=
  mkLoop (closed s) (pendingResolver s) v (sendRecords s)
    (delay s) (lastSendTime s) (counter s) (awaiting s) (inflight s) (now s)
    (invocations s).
Definition set_sendRecords (v : list SendRecord) (s : Loop) : Loop :=
  mkLoop (closed s) (pendingResolver s) (waitingConnectionResolve s) v
    (delay s) (lastSendTime s) (counter s) (awaiting s) (inflight s) (now s)
    (invocations s).
Definition set_delay (v : Z) (s : Loop) : Loop :=
  mkLoop (closed s) (pendingResolver s) (waitingConnectionResolve s)
    (sendRecords s) v (lastSendTime s) (counter s) (awaiting s) (inflight s)
    (now s) (invocations s).
Definition set_lastSendTime (v : Z) (s : Loop) : Loop :=
  mkLoop (closed s) (pendingResolver s) (waitingConnectionResolve s)
    (sendRecords s) (delay s) v (counter s) (awaiting s) (inflight s)
    (now s) (invocations s).
Definition set_counter (v : Z) (s : Loop) : Loop :=
  mkLoop (closed s) (pendingResolver s) (waitingConnectionResolve s)
    (sendRecords s) (delay s) (lastSendTime s) v (awaiting s) (inflight s)
    (now s) (invocations s).
Definition set_awaiting (v : Await) (s : Loop) : Loop :=
  mkLoop (closed s) (pendingResolver s) (waitingConnectionResolve s)
    (sendRecords s) (delay s) (lastSendTime s) (counter s) v (inflight s)
    (now s) (invocations s).
Definition set_inflight (v : list Z) (s : Loop) : Loop :=
  mkLoop (closed s) (pendingResolver s) (waitingConnectionResolve s)
    (sendRecords s) (delay s) (lastSendTime s) (counter s) (awaiting s) v
    (now s) (invocations s).
Definition set_now (v : Z) (s : Loop) : Loop :=
  mkLoop (closed s) (pendingResolver s) (waitingConnectionResolve s)
    (sendRecords s) (delay s) (lastSendTime s) (counter s) (awaiting s)
    (inflight s) v (invocations s).
Definition set_invocations (v : list Z) (s : Loop) : Loop :=
  mkLoop (closed s) (pendingResolver s) (waitingConnectionResolve s)
    (sendRecords s) (delay s) (lastSendTime s) (counter s) (awaiting s)
    (inflight s) (now s) v.

Arguments set_closed v s /.
Arguments set_pendingResolver v s /.
Arguments set_waitingConnectionResolve v s /.
Arguments set_sendRecords v s /.
Arguments set_delay v s /.
Arguments set_lastSendTime v s /.
Arguments set_counter v s /.
Arguments set_awaiting v s /.
Arguments set_inflight v s /.
Arguments set_now v s /.
Arguments set_invocations v s /.

(** What happens to a loop: the two public methods, the passing of time, the
    continuation of [run] after the [await] it stands at, and the
    continuation of a send after its [invokeSend] (started at [start]) has
    settled, with [ok = false] for a rejection as for a result [false]. *)
Inductive Event : Type :=
| Send
| Close
| Elapse (ms : Z)
| Resume
| SendSettled (start : Z) (ok : bool).

Fixpoint removeFirst (x : Z) (l : list Z) : option (list Z) :=
  match l with
  | [] => None
  | y :: l' =>
      if x =? y then Some l'
      else option_map (cons y) (removeFirst x l')
  end.

Section ConnectionLoop.

Variable delegate : ConnectionLoopDelegate.

Definition theDebounceDelay : Z :=
  match debounceDelay delegate with Some d => d | None => DEBOUNCE_DELAY end.
Definition theMaxConnections : Z :=
  match maxConnections delegate with Some m => m | None => MAX_CONNECTIONS end.

(** [close()] *)
Definition close (s : Loop) : Loop := set_closed true s.

(** [send()] *)
Definition send (s : Loop) : Loop :=
  set_pendingResolver (resolve (pendingResolver s)) s.

(** [_connectionAvailable()] *)
Definition connectionAvailable (s : Loop) : Loop :=
  if waitingConnectionResolve s then
    let s := set_waitingConnectionResolve false s in
    match awaiting s with
    | AwaitConnection r => set_awaiting (AwaitConnection (resolve r)) s
    | _ => s
    end
  else s.

(** [_waitUntilAvailableConnection()], awaited. *)
Definition waitUntilAvailableConnection (s : Loop) : Loop :=
  set_awaiting (AwaitConnection resolver)
    (set_waitingConnectionResolve true s).

(** The head of the [while] loop, up to its first [await]. *)
Definition loopHead (s : Loop) : Loop :=
  if closed s then set_awaiting Returned s
  else
    set_awaiting
      (AwaitPending (option_map (sleep (now s)) (watchdogTimer delegate))) s.

(** [counter++], the synchronous part of the asynchronous send (it notes
    its start time and calls [invokeSend]) and the next turn of the
    [while] loop. *)
Definition dispatch (s : Loop) : Loop :=
  let s := set_counter (counter s + 1) s in
  let start := now s in
  let s := set_lastSendTime start s in
  let s := set_invocations (start :: invocations s) s in
  let s := set_inflight (start :: inflight s) s in
  loopHead s.

(** The body of [if (counter > 0 || didLastSendRequestFail(sendRecords))]. *)
Definition pace (s : Loop) : Loop :=
  let '(d, records) :=
    computeDelayAndUpdateDurations (delay s) theMaxConnections
      (sendRecords s) in
  let s := set_sendRecords records (set_delay d s) in
  let timeSinceLastSend := now s - lastSendTime s in
  if delay s >? timeSinceLastSend then
    set_awaiting
      (AwaitPace (sleep (now s) (delay s - timeSinceLastSend)) resolver) s
  else dispatch s.

(** From the pacing condition on. *)
Definition waitToSend (s : Loop) : Loop :=
  if (counter s >? 0) || didLastSendRequestFail (sendRecords s)
  then pace s else dispatch s.

(** From the end of the debounce sleep on. *)
Definition debounced (s : Loop) : Loop :=
  let s := set_pendingResolver resolver s in
  if counter s >=? theMaxConnections then waitUntilAvailableConnection s
  else waitToSend s.

(** Whether the promise that [run] awaits is settled. *)
Definition settled (s : Loop) : bool :=
  match awaiting s with
  | AwaitPending watchdog =>
      pendingResolver s ||
      match watchdog with Some t => t <=? now s | None => false end
  | AwaitDebounce wake => wake <=? now s
  | AwaitConnection resolved => resolved
  | AwaitPace wake recoverResolved => (wake <=? now s) || recoverResolved
  | Returned => false
  end.

(** The continuation of [run] after its [await], up to the next one. *)
Definition resume (s : Loop) : Loop :=
  match awaiting s with
  | AwaitPending _ =>
      if closed s then set_awaiting Returned s
      else set_awaiting (AwaitDebounce (sleep (now s) theDebounceDelay)) s
  | AwaitDebounce _ =>
      if closed s then set_awaiting Returned s else debounced s
  | AwaitConnection _ =>
      if closed s then set_awaiting Returned s else waitToSend s
  | AwaitPace _ _ =>
      if closed s then set_awaiting Returned s else dispatch s
  | Returned => s
  end.

(** [recoverResolver.resolve(); recoverResolver = resolver()]: the resolved
    promise is the one a pacing wait races against, if [run] stands
    there. *)
Definition resolveRecover (s : Loop) : Loop :=
  match awaiting s with
  | AwaitPace wake r => set_awaiting (AwaitPace wake (resolve r)) s
  | _ => s
  end.

(** The continuation of the asynchronous send started at [start], after
    [invokeSend] has settled. *)
Definition sendSettled (start : Z) (ok : bool) (s : Loop) : Loop :=
  if closed s then s
  else
    let s :=
      set_sendRecords
        (JS.push (sendRecords s) (mkSendRecord (now s - start) ok)) s in
    let s := if recovered (sendRecords s) then resolveRecover s else s in
    let s := set_counter (counter s - 1) s in
    let s := connectionAvailable s in
    if negb ok then set_pendingResolver (resolve (pendingResolver s)) s
    else s.

(** One event; [None] when the event cannot happen in the state. *)
Definition step (s : Loop) (e : Event) : option Loop :=
  match e with
  | Send => Some (send s)
  | Close => Some (close s)
  | Elapse ms => if ms <? 0 then None else Some (set_now (now s + ms) s)
  | Resume => if settled s then Some (resume s) else None
  | SendSettled start ok =>
      match removeFirst start (inflight s) with
      | None => None
      | Some rest => Some (sendSettled start ok (set_inflight rest s))
      end
  end.

(** The events of a list, one after the other. *)
Fixpoint exec (s : Loop) (events : list Event) : option Loop :=
  match events with
  | [] => Some s
  | e :: events' =>
      match step s e with
      | Some s' => exec s' events'
      | None => None
      end
  end.

(** [run()], from its entry to its first [await]: the local variables are
    initialised and the loop is entered.  The rest of [run] is in [resume],
    which continues it from one [await] to the next. *)
Definition run (closed pendingResolver waitingConnectionResolve : bool)
    (t : Z) : Loop :=
  loopHead
    (mkLoop closed pendingResolver waitingConnectionResolve
       [] MIN_DELAY 0 0 Returned [] t []).

(** [new ConnectionLoop(delegate)] at time [t]: the fields are initialised
    and the constructor calls [run()]. *)
Definition newConnectionLoop (t : Z) : Loop := run false resolver false t.

End ConnectionLoop.

Definition okr (d : Z) : SendRecord := mkSendRecord d true.
Definition failed (d : Z) : SendRecord := mkSendRecord d false.
Definition defaults : ConnectionLoopDelegate := mkDelegate None None None.

(** ** The median and the delay as the specification words them

    The standard numerical median: the values are sorted as numbers. *)
Module Spec.

Fixpoint insert (x : Z) (l : list Z) : list Z :=
  match l with
  | [] => [x]
  | y :: l' => if x <=? y then x :: l else y :: insert x l'
  end.

Fixpoint sort (l : list Z) : list Z :=
  match l with
  | [] => []
  | x :: l' => insert x (sort l')
  end.

Definition numericalMedian (values : list Z) : option Q :=
  let sorted := sort values in
  let n := List.length sorted in
  if Nat.odd n then option_map inject_Z (nth_error sorted (Nat.div2 n))
  else
    match nth_error sorted (Nat.div2 n - 1), nth_error sorted (Nat.div2 n) with
    | Some a, Some b => Some (inject_Z (a + b) / 2)%Q
    | _, _ => None
    end.

Definition floor (q : Q) : Z := (Qnum q / Z.pos (Qden q))%Z.

(** [floor(median(durations of ok records) / maxConnections)] *)
Definition medianDelay (maxConnections : Z) (sendRecords : list SendRecord)
    : option Z :=
  option_map (fun med => floor (med / inject_Z maxConnections))
    (numericalMedian (map duration (filter ok sendRecords))).

End Spec.

(** ** Notions used in the statements *)

(** The pruning step of [computeDelayAndUpdateDurations]. *)
Definition prune (sendRecords : list SendRecord) : list SendRecord :=
  if length_ sendRecords >? CONNECTION_MEMORY_COUNT
  then JS.shift sendRecords else sendRecords.



(** The loop reaches the pacing condition of an iteration when it resumes
    after the debounce sleep with a connection to spare, or after the wait
    for an available connection. *)
Definition beforePacing (delegate : ConnectionLoopDelegate) (s : Loop) : Prop :=
  closed s = false /\
  ((exists wake, awaiting s = AwaitDebounce wake /\
                 counter s < theMaxConnections delegate) \/
   (exists resolved, awaiting s = AwaitConnection resolved)).

(** The delay after [k] pacing steps that each found the last send failed. *)
Fixpoint backoff (d0 : Z) (k : nat) : Z :=
  match k with
  | O => d0
  | S k' => Z.min MAX_DELAY (backoff d0 k' * 2)
  end.

(** Events of a loop that is left to its own retries: time passes, [run]
    resumes, sends fail; nobody calls [send()] or [close()]. *)
Definition retryOnly (e : Event) : bool :=
  match e with
  | Elapse _ | Resume => true
  | SendSettled _ outcome => negb outcome
  | Send | Close => false
  end.

Definition isSendSettled (e : Event) : bool :=
  match e with SendSettled _ _ => true | _ => false end.

(** The number of sends that settle in a list of events. *)
Definition settledSends (events : list Event) : nat :=
  List.length (filter isSendSettled events).

(** Events of a loop whose sends all fail and that nobody closes: time
    passes, [send()] is called, [run] resumes, sends fail. *)
Definition failuresOnly (e : Event) : bool :=
  match e with
  | Send | Elapse _ | Resume => true
  | SendSettled _ outcome => negb outcome
  | Close => false
  end.

(** A single send has been dispatched and is the only one in flight, and
    the loop, which is not closed, is in the pending state. *)
Definition justSent (s : Loop) : Prop :=
  closed s = false /\ waitingConnectionResolve s = false /\
  (exists watchdog, awaiting s = AwaitPending watchdog) /\
  inflight s = [lastSendTime s] /\ counter s = 1 /\
  exists older, invocations s = lastSendTime s :: older.

Fixpoint leadingFailures (sendRecords : list SendRecord) : nat :=
  match sendRecords with
  | r :: rest => if ok r then 0 else S (leadingFailures rest)
  | [] => 0
  end.

(** The number of consecutive failures at the end of the history. *)
Definition consecutiveFailures (sendRecords : list SendRecord) : nat :=
  leadingFailures (rev sendRecords).

(** The states of a loop whose sends are sequential and fail, after [k]
    failures in a row, where [d0] is the delay at the start of the
    streak. *)
Section Streak.

Variable d0 : Z.

(** A single send is in flight and the loop is in the pending state. *)
Definition sending (k : nat) (s : Loop) : Prop :=
  waitingConnectionResolve s = false /\
  (exists watchdog, awaiting s = AwaitPending watchdog) /\
  inflight s = [lastSendTime s] /\
  counter s = 1 /\ delay s = backoff d0 k.

(** The send has failed; the loop is about to wake or debounces. *)
Definition retrying (k : nat) (s : Loop) : Prop :=
  exists m, k = S m /\
  waitingConnectionResolve s = false /\ inflight s = [] /\ counter s = 0 /\
  didLastSendRequestFail (sendRecords s) = true /\
  delay s = backoff d0 m /\
  ((exists watchdog, awaiting s = AwaitPending watchdog) \/
   exists wake, awaiting s = AwaitDebounce wake).

(** The loop sleeps until [delay] after the last send. *)
Definition pacing (k : nat) (s : Loop) : Prop :=
  (1 <= k)%nat /\
  waitingConnectionResolve s = false /\
  inflight s = [] /\ counter s = 0 /\ delay s = backoff d0 k /\
  awaiting s = AwaitPace (lastSendTime s + delay s) false.

(** With no connection allowed the loop waits for one forever. *)
Definition starved (s : Loop) : Prop :=
  inflight s = [] /\ awaiting s = AwaitConnection false.

Definition streak (k : nat) (s : Loop) : Prop :=
  closed s = false /\
  (exists older, invocations s = lastSendTime s :: older) /\
  (sending k s \/ retrying k s \/ pacing k s \/ starved s).

(** A step of the streak that calls [invokeSend]: it comes after a failure
    and no sooner than the backed-off delay after the last send. *)
Definition backedOff (k : nat) (s s' : Loop) : Prop :=
  (1 <= k)%nat /\
  invocations s' = now s :: invocations s /\
  delay s' = backoff d0 k /\
  lastSendTime s + backoff d0 k <= now s.

End Streak.

(** Whether, in the events of a list, [run] resumes only while no send is
    in flight, so that the sends are sequential and each failure is
    followed by a pacing step of its own.  Without a watchdog and without
    calls of [send()] it cannot do otherwise (lemma
    [own_retries_resume_when_idle]); in general this says that the
    watchdog does not end, and nobody calls [send()], while a send is in
    flight. *)
Fixpoint resumesWhenIdle (delegate : ConnectionLoopDelegate) (s : Loop)
    (events : list Event) : bool :=
  match events with
  | [] => true
  | e :: events' =>
      match e, inflight s with
      | Resume, _ :: _ => false
      | _, _ =>
          match step delegate s e with
          | Some s' => resumesWhenIdle delegate s' events'
          | None => true
          end
      end
  end.

(** The loop, without watchdog, has just dispatched a single send and
    nobody has called [send()] since; and the states that its own retries
    lead to: a send is in flight and the loop cannot resume, or none is. *)
Definition onItsOwn (s : Loop) : Prop :=
  closed s = false /\
  ((inflight s = [] /\
    match awaiting s with
    | AwaitPace _ _ | AwaitConnection _ => pendingResolver s = false
    | _ => True
    end) \/
   (exists begun, inflight s = [begun]) /\
   awaiting s = AwaitPending None /\ pendingResolver s = false).


(** ** Concrete runs *)

(** The first [send()] on a fresh loop: the send goes out at 10 ms. *)
Definition firstSend : list Event := [Send; Resume; Elapse 10; Resume].

Definition afterFirstSend : Loop :=
  mkLoop false false false [] 30 10 1 (AwaitPending None) [10] 10 [10].

(** Three sequential failures from the initial delay: the sends go out at
    10, 70, 190 and 430 ms, that is 60, 120 and 240 ms apart. *)
Definition threeFailures : list Event :=
  [Elapse 5; SendSettled 10 false; Resume; Elapse 10; Resume;
   Elapse 45; Resume;
   Elapse 5; SendSettled 70 false; Resume; Elapse 10; Resume;
   Elapse 105; Resume;
   Elapse 5; SendSettled 190 false; Resume; Elapse 10; Resume;
   Elapse 225].

Definition beforeFourthSend : Loop :=
  mkLoop false false false [failed 5; failed 5; failed 5] 240 190 0
    (AwaitPace 430 false) [] 430 [190; 70; 10].

Definition afterFourthSend : Loop :=
  mkLoop false false false [failed 5; failed 5; failed 5] 240 430 1
    (AwaitPending None) [430] 430 [430; 190; 70; 10].

(** A loop with a watchdog of one minute, after its first send. *)
Definition everyMinute : ConnectionLoopDelegate :=
  mkDelegate None None (Some 60000).

Definition afterFirstSendWatched : Loop :=
  mkLoop false false false [] 30 10 1 (AwaitPending (Some 60010)) [10] 10
    [10].

Definition afterFourthSendWatched : Loop :=
  mkLoop false false false [failed 5; failed 5; failed 5] 240 430 1
    (AwaitPending (Some 60430)) [430] 430 [430; 190; 70; 10].

(** A send that succeeds in 1 ms, then a send that takes 11 ms and, while
    it is in flight, a [send()] whose pacing step sets the delay to
    [(1 / 3) | 0 = 0] and which is dispatched at 31 ms. *)
Definition delayOfZero : list Event :=
  [Send; Resume; Elapse 10; Resume; Elapse 1; SendSettled 10 true;
   Send; Resume; Elapse 10; Resume; Send; Resume; Elapse 10; Resume;
   Elapse 1; SendSettled 21 true].

Definition afterDelayOfZero : Loop :=
  mkLoop false false false [okr 1; okr 11] 0 31 1 (AwaitPending None) [31] 32
    [31; 21; 10].

(** Three sequential failures from there, each 1 ms after its dispatch. *)
Definition threeQuickFailures : list Event :=
  [SendSettled 31 false; Resume; Elapse 10; Resume;
   Elapse 1; SendSettled 42 false; Resume; Elapse 10; Resume;
   Elapse 1; SendSettled 53 false; Resume; Elapse 10].

(** Three sends in parallel, 30 ms apart (at 10, 40 and 70 ms), which all
    fail at 75 ms, the last two while the loop debounces. *)
Definition threeParallelFailures : list Event :=
  [Send; Resume; Elapse 10; Resume;
   Send; Resume; Elapse 10; Resume; Elapse 20; Resume;
   Send; Resume; Elapse 10; Resume; Elapse 20; Resume;
   Elapse 5; SendSettled 10 false; Resume;
   SendSettled 40 false; SendSettled 70 false;
   Elapse 10; Resume; Elapse 45].

(** A second [send()] while the first send is in flight, up to the pacing
    sleep of its iteration. *)
Definition pacingSleep : list Event :=
  [Send; Resume; Elapse 10; Resume; Send; Resume; Elapse 10; Resume].

(** A fourth [send()] while three sends are in flight, up to the wait for
    an available connection. *)
Definition connectionWait : list Event :=
  [Send; Resume; Elapse 10; Resume;
   Send; Resume; Elapse 10; Resume; Elapse 20; Resume;
   Send; Resume; Elapse 10; Resume; Elapse 20; Resume;
   Send; Resume; Elapse 10; Resume].

(** A [send()] at time [t] on an idle loop with a clean history: the send
    is dispatched after the debounce sleep, at [t + 10], and succeeds after
    [d] ms. *)
Definition isolatedSend (t d : Z) : list Event :=
  [Send; Resume; Elapse 10; Resume; Elapse d; SendSettled (t + 10) true].

(** [n] such sends of 5 ms each, 15 ms apart. *)
Fixpoint isolatedSends (n : nat) (t : Z) : list Event :=
  match n with
  | O => []
  | S n' => isolatedSend t 5 ++ isolatedSends n' (t + 15)
  end.

(** A send that stays in flight and one more [send()], up to the end of its
    debounce sleep: the iteration that follows enters the pacing step. *)
Definition secondSendInFlight : list Event :=
  [Send; Resume; Elapse 10; Resume; Send; Resume; Elapse 10].

(** Three isolated sends that take 9, 10 and 100 ms. *)
Definition threeSuccesses : list Event :=
  isolatedSend 0 9 ++ isolatedSend 19 10 ++ isolatedSend 39 100.

Definition elevenSendsAndTwo : list Event :=
  isolatedSends 11 0 ++ secondSendInFlight.


Definition debounceOver : Loop :=
  mkLoop false true false [] 30 0 0 (AwaitDebounce 10) [] 10 [].

(** ** Notions used in the further properties *)

(** [k] calls of [computeDelayAndUpdateDurations] in a row, each on the
    delay and the array that the call before has left. *)
Fixpoint recompute (k : nat) (delay maxConnections : Z)
    (sendRecords : list SendRecord) : Z * list SendRecord :=
  match k with
  | O => (delay, sendRecords)
  | S k' =>
      let '(delay', sendRecords') :=
        computeDelayAndUpdateDurations delay maxConnections sendRecords in
      recompute k' delay' maxConnections sendRecords'
  end.

(** What the fields of a loop have to do with each other in every state
    that a loop reaches (lemma [consistent_exec]): the counter and the sends
    in flight, the bound on the counter, the last send and the calls of
    [invokeSend], and what the loop awaits. *)
Definition consistent (delegate : ConnectionLoopDelegate) (s : Loop) : Prop :=
  Z.of_nat (List.length (inflight s)) <= counter s /\
  (closed s = false -> counter s = Z.of_nat (List.length (inflight s))) /\
  counter s <= Z.max 0 (theMaxConnections delegate) /\
  (theMaxConnections delegate <= 0 -> invocations s = []) /\
  match invocations s with
  | [] => inflight s = [] /\ sendRecords s = []
  | t :: _ => t = lastSendTime s
  end /\
  match awaiting s with
  | AwaitConnection resolved =>
      waitingConnectionResolve s = negb resolved /\
      if resolved then counter s < Z.max 0 (theMaxConnections delegate)
      else theMaxConnections delegate <= counter s
  | AwaitPace wake _ =>
      waitingConnectionResolve s = false /\
      counter s < Z.max 0 (theMaxConnections delegate) /\
      wake = lastSendTime s + delay s /\
      invocations s <> []
  | _ => waitingConnectionResolve s = false
  end.

(** What the clock has to do with a loop that was created at time [t0]:
    the sends in flight began, and the recorded sends lasted, within the
    age of the loop; and as long as the loop is younger than 2^31 ms its
    delay is not negative and at most the larger of 60_000 and its age. *)
Definition timely (t0 : Z) (s : Loop) : Prop :=
  t0 <= now s /\
  (forall begun, In begun (inflight s) -> t0 <= begun <= now s) /\
  (forall r, In r (sendRecords s) -> 0 <= duration r <= now s - t0) /\
  (now s - t0 < 2 ^ 31 -> 0 <= delay s <= Z.max 60000 (now s - t0)).

(** Three sends in flight and a fourth [send()]: the loop waits for an
    available connection. *)
Definition waitingForConnection : Loop :=
  mkLoop false false true [] 30 70 3 (AwaitConnection false) [70; 40; 10] 80
    [70; 40; 10].

(** The end of the pacing sleep before a second, parallel send. *)
Definition pacingSleepOver : Loop :=
  mkLoop false false false [] 30 10 1 (AwaitPace 40 false) [10] 40 [10].

(** Two sends in parallel, at 10 and 40 ms; the first fails at 45 ms and
    the loop, after its debounce sleep, sleeps in its pacing step until
    100 ms, while the second is in flight. *)
Definition failureThenPacing : list Event :=
  [Send; Resume; Elapse 10; Resume;
   Send; Resume; Elapse 10; Resume; Elapse 20; Resume;
   Elapse 5; SendSettled 10 false; Resume; Elapse 10; Resume].

Definition pacingAfterFailure : Loop :=
  mkLoop false false false [failed 35] 60 40 1 (AwaitPace 100 false) [40] 55
    [40; 10].

(** Events that are no reason for a loop in the pending state to go on:
    time passes, [run] resumes if it can, sends succeed. *)
Definition quietEvent (e : Event) : bool :=
  match e with
  | Elapse _ | Resume => true
  | SendSettled _ outcome => outcome
  | Send | Close => false
  end.

(** ** The default sort *)

Lemma insert_permutation (x : Z) (l : list Z) :
  Permutation (JS.insert x l) (x :: l).
Proof.
  induction l as [|y l IH]; simpl; [reflexivity|].
  destruct (JS.sortCompareLe x y); [reflexivity|].
  rewrite IH. apply perm_swap.
Qed.

Lemma sort_permutation (l : list Z) : Permutation (JS.sort l) l.
Proof.
  induction l as [|x l IH]; simpl; [reflexivity|].
  rewrite insert_permutation. now apply perm_skip.
Qed.

Lemma insert_sorted (x : Z) (l : list Z) :
  Sorted (fun a b => JS.sortCompareLe a b = true) l ->
  Sorted (fun a b => JS.sortCompareLe a b = true) (JS.insert x l).
Proof.
  induction 1 as [|y l Hl IH Hy]; simpl.
  - repeat constructor.
  - destruct (JS.sortCompareLe x y) eqn:E.
    + constructor; [now constructor|now constructor].
    + constructor; [exact IH|].
      assert (Hyx : JS.sortCompareLe y x = true).
      { unfold JS.sortCompareLe in *.
        destruct (String.leb_total (JS.toString x) (JS.toString y));
          congruence. }
      destruct Hy as [|z l' Hz]; simpl.
      * now constructor.
      * destruct (JS.sortCompareLe x z); now constructor.
Qed.

Lemma sort_sorted (l : list Z) :
  Sorted (fun a b => JS.sortCompareLe a b = true) (JS.sort l).
Proof.
  induction l as [|x l IH]; simpl; [constructor|].
  now apply insert_sorted.
Qed.

(** ** Reading the end of the array *)

Lemma length_app_one {A : Type} (a : list A) (x : A) :
  length_ (a ++ [x]) = length_ a + 1.
Proof. unfold length_. rewrite length_app. simpl. lia. Qed.

Lemma length_nonneg {A : Type} (a : list A) : 0 <= length_ a.
Proof. unfold length_. lia. Qed.

Lemma at_app_right {A : Type} (a b : list A) (i : Z) :
  length_ a <= i -> JS.at_ (a ++ b) i = JS.at_ b (i - length_ a).
Proof.
  intros Hi. pose proof (length_nonneg a) as Ha. unfold JS.at_, length_ in *.
  destruct (i <? 0) eqn:E1; [lia|].
  destruct (i - Z.of_nat (List.length a) <? 0) eqn:E2; [lia|].
  rewrite nth_error_app2 by lia. f_equal. lia.
Qed.

Lemma at_last {A : Type} (a : list A) (x : A) :
  JS.at_ (a ++ [x]) (length_ (a ++ [x]) - 1) = Some x.
Proof.
  rewrite length_app_one, at_app_right by lia.
  replace (length_ a + 1 - 1 - length_ a) with 0 by lia. reflexivity.
Qed.

Lemma at_previous {A : Type} (a : list A) (p x : A) :
  JS.at_ ((a ++ [p]) ++ [x]) (length_ ((a ++ [p]) ++ [x]) - 2) = Some p.
Proof.
  rewrite length_app_one.
  replace (length_ (a ++ [p]) + 1 - 2) with (length_ (a ++ [p]) - 1) by lia.
  unfold JS.at_. pose proof (length_nonneg a) as Ha.
  rewrite length_app_one.
  destruct (length_ a + 1 - 1 <? 0) eqn:E; [lia|].
  rewrite nth_error_app1.
  - rewrite nth_error_app2 by (unfold length_; lia).
    replace (Z.to_nat (length_ a + 1 - 1) - List.length a)%nat with 0%nat
      by (unfold length_; lia).
    reflexivity.
  - rewrite length_app. simpl. unfold length_. lia.
Qed.

(** An array is empty or has a last element. *)
Lemma array_end {A : Type} (a : list A) :
  a = [] \/ exists front x, a = front ++ [x].
Proof.
  destruct a as [|y a]; [now left|right].
  destruct (exists_last (l := y :: a)) as (front & x & E); [discriminate|].
  now exists front, x.
Qed.

Lemma didLastSendRequestFail_last (history : list SendRecord) (r : SendRecord) :
  didLastSendRequestFail (history ++ [r]) = negb (ok r).
Proof.
  unfold didLastSendRequestFail. rewrite at_last, length_app_one.
  pose proof (length_nonneg history).
  destruct (length_ history + 1 >? 0) eqn:E; [reflexivity|lia].
Qed.

Lemma recovered_last (history : list SendRecord) (p r : SendRecord) :
  recovered ((history ++ [p]) ++ [r]) = negb (ok p) && ok r.
Proof.
  unfold recovered. rewrite at_previous, at_last, !length_app_one.
  pose proof (length_nonneg history).
  destruct (length_ history + 1 + 1 >? 1) eqn:E; [reflexivity|lia].
Qed.

Lemma recovered_failed (history : list SendRecord) (r : SendRecord) :
  ok r = false -> recovered (history ++ [r]) = false.
Proof.
  intros Hr. unfold recovered. rewrite at_last, Hr.
  destruct (length_ (history ++ [r]) >? 1); [|reflexivity].
  destruct (JS.at_ _ _); simpl; [apply andb_false_r|reflexivity].
Qed.

(** ** The cases of [computeDelayAndUpdateDurations] *)

Lemma computeDelay_empty (delay m : Z) :
  computeDelayAndUpdateDurations delay m [] = (delay, []).
Proof. reflexivity. Qed.

Lemma computeDelay_failed (delay m : Z) (history : list SendRecord)
    (r : SendRecord) :
  ok r = false ->
  computeDelayAndUpdateDurations delay m (history ++ [r])
  = (Z.min MAX_DELAY (delay * 2), history ++ [r]).
Proof.
  intros Hr. unfold computeDelayAndUpdateDurations.
  rewrite at_last, Hr. simpl negb. cbv iota.
  pose proof (length_nonneg history). rewrite length_app_one.
  destruct (length_ history + 1 =? 0) eqn:E; [lia|reflexivity].
Qed.

Lemma computeDelay_single (delay m : Z) (r : SendRecord) :
  ok r = true ->
  computeDelayAndUpdateDurations delay m [r]
  = (JS.divToInt32 (Some (inject_Z (duration r))) m, [r]).
Proof.
  intros Hr. unfold computeDelayAndUpdateDurations. simpl. now rewrite Hr.
Qed.

Lemma computeDelay_several (delay m : Z) (history : list SendRecord)
    (p r : SendRecord) :
  ok r = true ->
  computeDelayAndUpdateDurations delay m ((history ++ [p]) ++ [r])
  = let records := prune ((history ++ [p]) ++ [r]) in
    if negb (ok p) then (MIN_DELAY, records)
    else (JS.divToInt32 (median (map duration (filter ok records))) m,
          records).
Proof.
  intros Hr. unfold computeDelayAndUpdateDurations.
  rewrite at_last, at_previous, Hr. simpl negb. cbv iota.
  pose proof (length_nonneg history). rewrite !length_app_one.
  destruct (length_ history + 1 + 1 =? 0) eqn:E0; [lia|].
  destruct (length_ history + 1 + 1 =? 1) eqn:E1; [lia|].
  unfold prune. rewrite !length_app_one. simpl.
  destruct (ok p); reflexivity.
Qed.

(** ** The delay after a failure and after a recovery *)

(** C5: for every outcome history whose last record is a failure,
    [computeDelayAndUpdateDurations] returns [min(60_000, delay * 2)]: the
    current delay doubled and capped at 60_000 ms. *)
Theorem computeDelay_last_failed
    (delay maxConnections : Z) (history : list SendRecord) (r : SendRecord) :
  ok r = false ->
  fst (computeDelayAndUpdateDurations delay maxConnections (history ++ [r]))
  = Z.min 60000 (delay * 2).
Proof.
  intros Hr. rewrite computeDelay_failed by assumption. reflexivity.
Qed.

Lemma computeDelay_last_failed_witness :
  ok (failed 12) = false /\
  fst (computeDelayAndUpdateDurations 45000 3
         ([okr 7; failed 9] ++ [failed 12]))
  = Z.min 60000 (45000 * 2).
Proof.
  split; [reflexivity|].
  apply (computeDelay_last_failed 45000 3 [okr 7; failed 9] (failed 12)).
  reflexivity.
Defined.

(** C6: for every outcome history with more than one record whose last
    record is ok and whose second-to-last record is not ok, the history is a
    recovery in the sense of [recovered] and [computeDelayAndUpdateDurations]
    returns [MIN_DELAY], which is 30. *)
Theorem computeDelay_recovered
    (delay maxConnections : Z) (history : list SendRecord)
    (previous last : SendRecord) :
  ok previous = false ->
  ok last = true ->
  recovered (history ++ [previous; last]) = true /\
  fst (computeDelayAndUpdateDurations delay maxConnections
         (history ++ [previous; last])) = MIN_DELAY /\
  MIN_DELAY = 30.
Proof.
  intros Hp Hl.
  replace (history ++ [previous; last])
    with ((history ++ [previous]) ++ [last])
    by (rewrite <- app_assoc; reflexivity).
  rewrite recovered_last, computeDelay_several by assumption.
  rewrite Hp, Hl. simpl. repeat split.
Qed.

Lemma computeDelay_recovered_witness :
  ok (failed 2) = false /\ ok (okr 700) = true /\
  recovered ([okr 40; failed 3] ++ [failed 2; okr 700]) = true /\
  fst (computeDelayAndUpdateDurations 960 3
         ([okr 40; failed 3] ++ [failed 2; okr 700])) = MIN_DELAY /\
  MIN_DELAY = 30.
Proof.
  split; [reflexivity|]. split; [reflexivity|].
  apply (computeDelay_recovered 960 3 [okr 40; failed 3] (failed 2) (okr 700));
    reflexivity.
Defined.

(** ** What the call does to the array *)

Lemma prune_cases (sendRecords : list SendRecord) :
  prune sendRecords = sendRecords \/
  (prune sendRecords = JS.shift sendRecords /\
   length_ sendRecords > CONNECTION_MEMORY_COUNT).
Proof.
  unfold prune. destruct (length_ sendRecords >? CONNECTION_MEMORY_COUNT) eqn:E.
  - right. split; [reflexivity|lia].
  - now left.
Qed.

Lemma computeDelay_records (delay m : Z) (sendRecords : list SendRecord) :
  snd (computeDelayAndUpdateDurations delay m sendRecords) = sendRecords \/
  snd (computeDelayAndUpdateDurations delay m sendRecords)
  = prune sendRecords.
Proof.
  destruct (array_end sendRecords) as [->|(front & r & ->)]; [now left|].
  destruct (ok r) eqn:Hr.
  - destruct (array_end front) as [->|(history & p & ->)].
    + left. simpl app. now rewrite computeDelay_single.
    + right. rewrite computeDelay_several by assumption.
      cbv zeta. now destruct (negb (ok p)).
  - left. now rewrite computeDelay_failed.
Qed.

(** C9: a call of [computeDelayAndUpdateDurations] in which the last record
    is a failure, or in which the history holds at most one record, leaves
    the array as it is; and every call leaves the array as it is or removes
    exactly its first (oldest) entry. *)
Theorem computeDelay_frame
    (delay maxConnections : Z) (sendRecords : list SendRecord) :
  ((exists history r, sendRecords = history ++ [r] /\ ok r = false) \/
   (List.length sendRecords <= 1)%nat ->
   snd (computeDelayAndUpdateDurations delay maxConnections sendRecords)
   = sendRecords) /\
  (snd (computeDelayAndUpdateDurations delay maxConnections sendRecords)
   = sendRecords \/
   exists oldest,
     sendRecords
     = oldest ::
       snd (computeDelayAndUpdateDurations delay maxConnections sendRecords)).
Proof.
  split.
  - intros [(history & r & -> & Hr)|Hlen].
    + now rewrite computeDelay_failed.
    + destruct sendRecords as [|r [|r' rest]];
        [reflexivity| |simpl in Hlen; lia].
      destruct (ok r) eqn:Hr.
      * now rewrite computeDelay_single.
      * change [r] with ([] ++ [r]). now rewrite computeDelay_failed.
  - destruct (computeDelay_records delay maxConnections sendRecords)
      as [E|E]; [now left|].
    destruct (prune_cases sendRecords) as [E'|[E' Hlen]].
    + left. congruence.
    + right. rewrite E, E'. destruct sendRecords as [|oldest rest].
      * unfold length_, CONNECTION_MEMORY_COUNT in Hlen. simpl in Hlen. lia.
      * now exists oldest.
Qed.

Lemma computeDelay_frame_witness :
  (exists history r,
      [okr 5; okr 6; failed 7] = history ++ [r] /\ ok r = false) /\
  snd (computeDelayAndUpdateDurations 30 3 [okr 5; okr 6; failed 7])
  = [okr 5; okr 6; failed 7].
Proof.
  assert (H : exists history r,
             [okr 5; okr 6; failed 7] = history ++ [r] /\ ok r = false).
  { exists [okr 5; okr 6], (failed 7). split; reflexivity. }
  split; [exact H|].
  apply (computeDelay_frame 30 3 [okr 5; okr 6; failed 7]).
  left. exact H.
Defined.

(** ** The median

    Where the median of the code is the numerical median.

    The sort is the only place where [median] departs from the numerical
    median: on durations that [values.sort()] happens to leave in numerical
    order (all of them with the same number of digits, say), and within the
    range of a 32-bit integer, the delay is the one of the specification. *)

Lemma spec_insert_In (x y : Z) (l : list Z) :
  In y (Spec.insert x l) -> y = x \/ In y l.
Proof.
  induction l as [|z l IH]; simpl.
  - intros [<-|[]]. now left.
  - destruct (x <=? z); simpl.
    + intros [<-|[<-|H]]; auto.
    + intros [<-|H]; auto. destruct (IH H); auto.
Qed.

Lemma spec_sort_In (y : Z) (l : list Z) : In y (Spec.sort l) -> In y l.
Proof.
  induction l as [|x l IH]; simpl; [tauto|].
  intros H. apply spec_insert_In in H as [->|H]; auto.
Qed.

Lemma shiftr_div2 (n : nat) : Z.shiftr (Z.of_nat n) 1 = Z.of_nat (Nat.div2 n).
Proof.
  rewrite Z.shiftr_div_pow2 by lia. rewrite Nat.div2_div, Nat2Z.inj_div.
  reflexivity.
Qed.

Lemma mod2_odd (n : nat) : (Z.of_nat n mod 2 =? 1) = Nat.odd n.
Proof.
  rewrite (Nat.div2_odd n) at 1. rewrite Nat2Z.inj_add, Nat2Z.inj_mul.
  rewrite Z.add_comm, Z.mul_comm, Z_mod_plus_full.
  now destruct (Nat.odd n).
Qed.

Lemma at_of_nat {A : Type} (a : list A) (i : nat) :
  JS.at_ a (Z.of_nat i) = nth_error a i.
Proof.
  unfold JS.at_. destruct (Z.of_nat i <? 0) eqn:E.
  - apply Z.ltb_lt in E. lia.
  - now rewrite Nat2Z.id.
Qed.

Lemma median_numerical (values : list Z) :
  JS.sort values = Spec.sort values ->
  median values = Spec.numericalMedian values.
Proof.
  intros Hsort. unfold median, Spec.numericalMedian. rewrite Hsort.
  set (sorted := Spec.sort values). unfold length_.
  rewrite mod2_odd, shiftr_div2, at_of_nat.
  destruct (Nat.odd (List.length sorted)) eqn:Hodd; [reflexivity|].
  destruct (Nat.div2 (List.length sorted)) as [|h] eqn:Hhalf.
  - assert (Hlen : List.length sorted = 0%nat).
    { rewrite (Nat.div2_odd (List.length sorted)), Hhalf, Hodd. reflexivity. }
    destruct sorted; [reflexivity|discriminate].
  - replace (Z.of_nat (S h) - 1) with (Z.of_nat h) by lia.
    rewrite at_of_nat. replace (S h - 1)%nat with h by lia. reflexivity.
Qed.

Lemma numericalMedian_bounds (values : list Z) (bound : Z) (med : Q) :
  (forall v, In v values -> 0 <= v < bound) ->
  Spec.numericalMedian values = Some med ->
  0 <= Qnum med < bound * Z.pos (Qden med).
Proof.
  intros Hall. unfold Spec.numericalMedian.
  set (sorted := Spec.sort values).
  assert (Hin : forall i v, nth_error sorted i = Some v -> 0 <= v < bound).
  { intros i v H. apply Hall, spec_sort_In. eapply nth_error_In, H. }
  destruct (Nat.odd (List.length sorted)).
  - destruct (nth_error sorted _) as [a|] eqn:Ha; [|discriminate].
    intros [= <-]. specialize (Hin _ _ Ha). simpl. lia.
  - destruct (nth_error sorted (_ - 1)) as [a|] eqn:Ha; [|discriminate].
    destruct (nth_error sorted _) as [b|] eqn:Hb in |- *; [|discriminate].
    intros [= <-]. pose proof (Hin _ _ Ha). pose proof (Hin _ _ Hb).
    simpl. lia.
Qed.

Lemma spec_insert_length (x : Z) (l : list Z) :
  List.length (Spec.insert x l) = S (List.length l).
Proof.
  induction l as [|y l IH]; simpl; [reflexivity|].
  destruct (x <=? y); simpl; [reflexivity|now rewrite IH].
Qed.

Lemma spec_sort_length (l : list Z) :
  List.length (Spec.sort l) = List.length l.
Proof.
  induction l as [|x l IH]; simpl; [reflexivity|].
  now rewrite spec_insert_length, IH.
Qed.

Lemma numericalMedian_defined (values : list Z) :
  values <> [] -> exists med, Spec.numericalMedian values = Some med.
Proof.
  intros Hne. unfold Spec.numericalMedian.
  set (sorted := Spec.sort values).
  assert (Hlen : (0 < List.length sorted)%nat).
  { subst sorted. rewrite spec_sort_length.
    destruct values; [contradiction|simpl; lia]. }
  pose proof (Nat.lt_div2 _ Hlen) as Hhalf.
  destruct (nth_error sorted (Nat.div2 (List.length sorted))) as [b|] eqn:Hb;
    [|apply nth_error_None in Hb; lia].
  destruct (Nat.odd (List.length sorted)); [now eexists|].
  destruct (nth_error sorted (Nat.div2 (List.length sorted) - 1))
    as [a|] eqn:Ha; [now eexists|].
  apply nth_error_None in Ha. lia.
Qed.

Lemma divToInt32_floor (med : Q) (m : Z) :
  0 < m ->
  0 <= Qnum med < 2 ^ 31 * Z.pos (Qden med) ->
  JS.divToInt32 (Some med) m = Spec.floor (med / inject_Z m).
Proof.
  intros Hm Hmed. unfold JS.divToInt32.
  destruct (m =? 0) eqn:E; [lia|].
  destruct m as [|p|p]; try lia.
  destruct med as [n d]. unfold JS.truncate, Spec.floor. simpl in *.
  rewrite Z.mul_1_r. rewrite Z.quot_div_nonneg by lia.
  assert (Hq : 0 <= n / Z.pos (d * p) < 2 ^ 31).
  { split; [apply Z.div_pos; lia|].
    apply Z.div_lt_upper_bound; [lia|]. rewrite Pos2Z.inj_mul. nia. }
  unfold JS.toInt32. rewrite Z.mod_small by lia. lia.
Qed.

(** For a history of several records that ends in two successes, with a
    positive number of connections and durations in [0, 2^31) on which the
    two sorts agree, the delay is
    [floor(median(durations of ok records) / maxConnections)], taken over
    the records that the pruning step has left. *)
Lemma delay_is_median_delay_when_sorts_agree
    (delay maxConnections : Z) (history : list SendRecord)
    (previous last : SendRecord) :
  let records := prune (history ++ [previous; last]) in
  let durations := map duration (filter ok records) in
  ok previous = true -> ok last = true ->
  0 < maxConnections ->
  (forall r, In r (history ++ [previous; last]) -> 0 <= duration r < 2 ^ 31) ->
  JS.sort durations = Spec.sort durations ->
  Some (fst (computeDelayAndUpdateDurations delay maxConnections
               (history ++ [previous; last])))
  = Spec.medianDelay maxConnections records.
Proof.
  intros records durations Hp Hl Hm Hrange Hsort.
  subst records durations.
  replace (history ++ [previous; last])
    with ((history ++ [previous]) ++ [last]) in *
    by (rewrite <- app_assoc; reflexivity).
  rewrite computeDelay_several by assumption. cbv zeta. rewrite Hp. simpl fst.
  set (records := prune ((history ++ [previous]) ++ [last])) in *.
  unfold Spec.medianDelay. rewrite (median_numerical _ Hsort).
  destruct (Spec.numericalMedian _) as [med|] eqn:Hmed.
  - simpl. f_equal. apply divToInt32_floor; [assumption|].
    apply (numericalMedian_bounds _ _ _) with (2 := Hmed).
    intros v Hv. apply in_map_iff in Hv as (r & <- & Hr).
    apply filter_In in Hr as (Hr & _). apply Hrange.
    subst records. unfold prune in Hr.
    destruct (length_ _ >? _); [|assumption].
    unfold JS.shift in Hr. destruct ((history ++ [previous]) ++ [last]);
      [assumption|now right].
  - exfalso.
    destruct (numericalMedian_defined (map duration (filter ok records)))
      as (med & Hdef); [|congruence].
    assert (Hin : In last (filter ok records)).
    { apply filter_In. split; [|assumption]. subst records. unfold prune.
      destruct (length_ _ >? _) eqn:Hlong.
      - destruct (history ++ [previous]) as [|oldest rest] eqn:E.
        + destruct history; discriminate.
        + simpl. apply in_or_app. right. now left.
      - apply in_or_app. right. now left. }
    destruct (filter ok records); [contradiction|discriminate].
Qed.

Example delay_of_four_successes :
  Some (fst (computeDelayAndUpdateDurations 30 3
               ([okr 120; okr 450] ++ [okr 300; okr 200])))
  = Spec.medianDelay 3 [okr 120; okr 450; okr 300; okr 200] /\
  Spec.medianDelay 3 [okr 120; okr 450; okr 300; okr 200] = Some 83.
Proof.
  split; [|reflexivity].
  apply (delay_is_median_delay_when_sorts_agree 30 3 [okr 120; okr 450]
           (okr 300) (okr 200)); try reflexivity.
  intros r Hr. simpl in Hr.
  destruct Hr as [<-|[<-|[<-|[<-|[]]]]]; simpl; lia.
Qed.

(** C1: on the history of three successful sends that took 9, 10 and 100 ms
    (the last record is ok, there are several records, it is no recovery),
    with three connections, [values.sort()] orders the durations as
    strings, 10 before 100 before 9, [median] returns 100 and the delay is
    [floor(100 / 3) = 33]; the numerical median of the durations is 10 and
    [floor(10 / 3) = 3].  The loop computes this delay when a send comes
    after these three while another one is in flight. *)
Theorem median_sorts_durations_as_strings :
  let history := [okr 9; okr 10; okr 100] in
  recovered history = false /\
  JS.sort (map duration (filter ok history)) = [10; 100; 9] /\
  fst (computeDelayAndUpdateDurations 30 3 history) = 33 /\
  Spec.medianDelay 3 history = Some 3 /\
  exists s s',
    exec defaults (newConnectionLoop defaults 0)
      (threeSuccesses ++ secondSendInFlight)
    = Some s /\
    step defaults s Resume = Some s' /\
    sendRecords s = history /\ delay s' = 33.
Proof.
  cbv zeta. split; [reflexivity|]. split; [reflexivity|].
  split; [reflexivity|]. split; [reflexivity|].
  eexists. eexists. split; [vm_compute; reflexivity|].
  split; [vm_compute; reflexivity|]. vm_compute. split; reflexivity.
Qed.

(** ** The loop after [close()] *)

Section Closing.

Variable delegate : ConnectionLoopDelegate.

Lemma removeFirst_In (x : Z) (l : list Z) :
  In x l -> exists rest, removeFirst x l = Some rest.
Proof.
  induction l as [|y l IH]; simpl; [tauto|]. intros [->|Hin].
  - rewrite Z.eqb_refl. now eexists.
  - destruct (x =? y); [now eexists|].
    destruct (IH Hin) as (rest & ->). now eexists.
Qed.

Lemma resume_closed (s : Loop) :
  closed s = true ->
  settled s = true ->
  resume delegate s = set_awaiting Returned s.
Proof.
  intros Hc Hs. unfold resume, settled in *. rewrite Hc.
  destruct (awaiting s); try reflexivity. discriminate.
Qed.

Lemma step_closed (s s' : Loop) (e : Event) :
  closed s = true ->
  step delegate s e = Some s' ->
  closed s' = true /\ invocations s' = invocations s /\
  sendRecords s' = sendRecords s.
Proof.
  intros Hc Hstep. destruct e as [| |ms| |start ok]; simpl in Hstep.
  - injection Hstep as <-. now rewrite <- Hc.
  - injection Hstep as <-. repeat split.
  - destruct (ms <? 0); [discriminate|]. injection Hstep as <-.
    now rewrite <- Hc.
  - destruct (settled s) eqn:Hs; [|discriminate].
    injection Hstep as <-. rewrite resume_closed by assumption.
    now rewrite <- Hc.
  - destruct (removeFirst start (inflight s)); [|discriminate].
    injection Hstep as <-. unfold sendSettled. simpl. rewrite Hc.
    now rewrite <- Hc.
Qed.

Lemma exec_closed (events : list Event) :
  forall s s' : Loop,
    closed s = true ->
    exec delegate s events = Some s' ->
    closed s' = true /\ invocations s' = invocations s /\
    sendRecords s' = sendRecords s.
Proof.
  induction events as [|e events IH]; simpl; intros s s' Hc Hrun.
  - injection Hrun as <-. repeat split. assumption.
  - destruct (step delegate s e) as [s1|] eqn:Hstep; [|discriminate].
    destruct (step_closed s s1 e Hc Hstep) as (Hc1 & Hi1 & Hr1).
    destruct (IH s1 s' Hc1 Hrun) as (Hc' & Hi' & Hr').
    repeat split; congruence.
Qed.

(** C10: once the closed flag is set, no run of the loop calls
    [invokeSend] again, whatever happens (sends, timers, settling sends):
    the continuation of [run] after each of its [await]s returns from the
    loop without a dispatch, and a [send()] resolves the pending resolver
    and dispatches nothing. *)
Theorem closed_loop_never_sends (s : Loop) :
  closed s = true ->
  (forall events s',
      exec delegate s events = Some s' ->
      closed s' = true /\ invocations s' = invocations s) /\
  (forall s',
      step delegate s Resume = Some s' ->
      awaiting s' = Returned /\ invocations s' = invocations s) /\
  (step delegate s Send = Some (send s) /\
   pendingResolver (send s) = true /\
   invocations (send s) = invocations s).
Proof.
  intros Hc. split; [|split].
  - intros events s' Hrun.
    destruct (exec_closed events s s' Hc Hrun) as (H1 & H2 & _). now split.
  - intros s' Hstep. simpl in Hstep.
    destruct (settled s) eqn:Hs; [|discriminate].
    injection Hstep as <-. rewrite resume_closed by assumption. now split.
  - repeat split.
Qed.


End Closing.

Lemma closed_loop_never_sends_witness :
  closed (close afterFirstSend) = true /\
  forall events s',
    exec defaults (close afterFirstSend) events = Some s' ->
    closed s' = true /\ invocations s' = [10].
Proof.
  split; [reflexivity|].
  apply (closed_loop_never_sends defaults (close afterFirstSend)).
  reflexivity.
Defined.



(** ** Debouncing *)

Section Iteration.

Variable delegate : ConnectionLoopDelegate.

Lemma loopHead_open (s : Loop) :
  closed s = false ->
  loopHead delegate s
  = set_awaiting
      (AwaitPending (option_map (sleep (now s)) (watchdogTimer delegate))) s.
Proof. intros Hc. unfold loopHead. now rewrite Hc. Qed.

Lemma dispatch_open (s : Loop) :
  closed s = false ->
  dispatch delegate s
  = mkLoop false (pendingResolver s) (waitingConnectionResolve s)
      (sendRecords s) (delay s) (now s) (counter s + 1)
      (AwaitPending (option_map (sleep (now s)) (watchdogTimer delegate)))
      (now s :: inflight s) (now s) (now s :: invocations s).
Proof.
  intros Hc. unfold dispatch. rewrite loopHead_open by assumption.
  simpl. now rewrite Hc.
Qed.

(** The two ends of the pacing step: it sleeps, until [delay] after the
    last send, or it goes on to the dispatch. *)
Lemma pace_open (s : Loop) :
  closed s = false ->
  let result :=
    computeDelayAndUpdateDurations (delay s) (theMaxConnections delegate)
      (sendRecords s) in
  let paced := set_sendRecords (snd result) (set_delay (fst result) s) in
  pace delegate s
  = if fst result >? now s - lastSendTime s
    then set_awaiting (AwaitPace (lastSendTime s + fst result) false) paced
    else dispatch delegate paced.
Proof.
  intros Hc. cbv zeta. unfold pace.
  destruct (computeDelayAndUpdateDurations _ _ _) as [d records]. simpl.
  destruct (d >? now s - lastSendTime s) eqn:E; [|reflexivity].
  unfold sleep, resolver. do 2 f_equal. lia.
Qed.

(** The state in which [run] resumes after the debounce sleep does not
    depend on the pending resolver. *)
Lemma debounced_forgets (s : Loop) (b : bool) :
  debounced delegate (set_pendingResolver b s) = debounced delegate s.
Proof. reflexivity. Qed.





End Iteration.


(** ** The pacing condition *)

Lemma didLastSendRequestFail_iff (sendRecords : list SendRecord) :
  didLastSendRequestFail sendRecords = true <->
  exists history r, sendRecords = history ++ [r] /\ ok r = false.
Proof.
  split.
  - destruct (array_end sendRecords) as [->|(history & r & ->)];
      [discriminate|].
    rewrite didLastSendRequestFail_last. intros H.
    exists history, r. split; [reflexivity|]. now destruct (ok r).
  - intros (history & r & -> & Hr).
    now rewrite didLastSendRequestFail_last, Hr.
Qed.

Section Pacing.

Variable delegate : ConnectionLoopDelegate.

Lemma resume_beforePacing (s : Loop) :
  beforePacing delegate s ->
  resume delegate s
  = waitToSend delegate
      (match awaiting s with
       | AwaitDebounce _ => set_pendingResolver false s
       | _ => s
       end).
Proof.
  intros (Hc & [(wake & Ha & Hcount)|(resolved & Ha)]);
    unfold resume; rewrite Ha, Hc; [|reflexivity].
  unfold debounced. simpl.
  destruct (counter s >=? theMaxConnections delegate) eqn:E; [lia|].
  reflexivity.
Qed.

(** C7: when an iteration reaches the pacing condition, the pacing step is
    entered if the number of active connections is positive or the last
    recorded send failed: the delay and the history become what
    [computeDelayAndUpdateDurations] makes of them, and the loop either
    sleeps until [delay] ms after the last send or, when that time has
    passed, dispatches.  Otherwise, with no active connection and a history
    that does not end in a failure, the step is not entered: the delay and
    the history are untouched and the send is dispatched at once. *)
Theorem pacing_entered_iff (s s' : Loop) :
  beforePacing delegate s ->
  step delegate s Resume = Some s' ->
  (0 < counter s \/
   (exists history r, sendRecords s = history ++ [r] /\ ok r = false) ->
   (delay s', sendRecords s')
   = computeDelayAndUpdateDurations (delay s) (theMaxConnections delegate)
       (sendRecords s) /\
   ((now s - lastSendTime s < delay s' /\
     awaiting s' = AwaitPace (lastSendTime s + delay s') false /\
     invocations s' = invocations s) \/
    (delay s' <= now s - lastSendTime s /\
     (exists watchdog, awaiting s' = AwaitPending watchdog) /\
     invocations s' = now s :: invocations s))) /\
  (counter s <= 0 /\
   ~ (exists history r, sendRecords s = history ++ [r] /\ ok r = false) ->
   delay s' = delay s /\ sendRecords s' = sendRecords s /\
   (exists watchdog, awaiting s' = AwaitPending watchdog) /\
   invocations s' = now s :: invocations s /\
   lastSendTime s' = now s).
Proof.
  intros Hb Hstep. simpl in Hstep.
  destruct (settled s); [|discriminate]. injection Hstep as <-.
  rewrite (resume_beforePacing s Hb). destruct Hb as (Hc & Hb).
  set (s0 := match awaiting s with
             | AwaitDebounce _ => set_pendingResolver false s
             | _ => s
             end).
  assert (Hs0 : closed s0 = false /\ delay s0 = delay s /\
                sendRecords s0 = sendRecords s /\ counter s0 = counter s /\
                now s0 = now s /\ lastSendTime s0 = lastSendTime s /\
                invocations s0 = invocations s).
  { subst s0. destruct (awaiting s); simpl; repeat split; assumption. }
  destruct Hs0 as (Hc0 & Hd0 & Hr0 & Hn0 & Hnow0 & Hl0 & Hi0).
  clearbody s0. unfold waitToSend. rewrite Hr0, Hn0. split.
  - intros Hcond.
    assert (E : (counter s >? 0) || didLastSendRequestFail (sendRecords s)
                = true).
    { apply orb_true_iff. destruct Hcond as [H|H]; [left; lia|right].
      now apply didLastSendRequestFail_iff. }
    rewrite E, pace_open by assumption. cbv zeta.
    rewrite Hd0, Hr0, Hnow0, Hl0.
    destruct (computeDelayAndUpdateDurations _ _ _) as [d records].
    simpl fst. simpl snd.
    destruct (d >? now s - lastSendTime s) eqn:Hd.
    + simpl. split; [reflexivity|]. left. rewrite Hi0. repeat split. lia.
    + rewrite dispatch_open by assumption. simpl.
      split; [reflexivity|]. right. rewrite Hnow0, Hi0.
      repeat split; [lia|]. now eexists.
  - intros (Hcount & Hlast).
    assert (E : (counter s >? 0) || didLastSendRequestFail (sendRecords s)
                = false).
    { apply orb_false_iff. split; [lia|].
      destruct (didLastSendRequestFail (sendRecords s)) eqn:E';
        [|reflexivity].
      exfalso. apply Hlast. now apply didLastSendRequestFail_iff. }
    rewrite E, dispatch_open by assumption. simpl.
    rewrite Hd0, Hr0, Hnow0, Hi0. repeat split. now eexists.
Qed.

End Pacing.

Lemma pacing_entered_iff_witness :
  exec defaults (newConnectionLoop defaults 0) [Send; Resume; Elapse 10]
  = Some debounceOver /\
  beforePacing defaults debounceOver /\
  step defaults debounceOver Resume = Some afterFirstSend /\
  delay afterFirstSend = delay debounceOver /\
  invocations afterFirstSend = now debounceOver :: invocations debounceOver.
Proof.
  assert (Hb : beforePacing defaults debounceOver).
  { split; [reflexivity|]. left. exists 10. split; [reflexivity|].
    vm_compute. reflexivity. }
  assert (Hstep : step defaults debounceOver Resume = Some afterFirstSend)
    by reflexivity.
  split; [reflexivity|]. split; [exact Hb|]. split; [exact Hstep|].
  destruct (pacing_entered_iff defaults debounceOver afterFirstSend Hb Hstep)
    as (_ & Hidle).
  destruct Hidle as (Hd & _ & _ & Hi & _).
  - split; [simpl; lia|]. intros (history & r & E & _).
    simpl in E. destruct history; discriminate.
  - split; [exact Hd|exact Hi].
Defined.

(** ** Backoff over consecutive failures *)

Lemma backoff_closed_form (d0 : Z) (k : nat) :
  (1 <= k)%nat -> backoff d0 k = Z.min 60000 (d0 * 2 ^ Z.of_nat k).
Proof.
  induction k as [|k IH]; [lia|]. intros _. simpl backoff.
  replace (Z.of_nat (S k)) with (Z.of_nat k + 1) by lia.
  rewrite Z.pow_add_r, Z.pow_1_r by lia. unfold MAX_DELAY.
  destruct k as [|k].
  - simpl. lia.
  - rewrite IH by lia. lia.
Qed.

Lemma backoff_lower_bound (d0 : Z) (k : nat) :
  (1 <= k)%nat -> 15 <= d0 ->
  Z.min 60000 (30 * 2 ^ (Z.of_nat k - 1)) <= backoff d0 k.
Proof.
  intros Hk Hd. rewrite backoff_closed_form by assumption.
  replace (Z.of_nat k) with ((Z.of_nat k - 1) + 1) at 2 by lia.
  rewrite Z.pow_add_r, Z.pow_1_r by lia.
  assert (0 < 2 ^ (Z.of_nat k - 1)) by (apply Z.pow_pos_nonneg; lia).
  nia.
Qed.

Section Backoff.

Variable delegate : ConnectionLoopDelegate.

(** The delay at the start of the streak of failures. *)
Variable d0 : Z.

Lemma dispatch_sending (k : nat) (s : Loop) :
  closed s = false ->
  waitingConnectionResolve s = false ->
  inflight s = [] -> counter s = 0 -> delay s = backoff d0 k ->
  streak d0 k (dispatch delegate s).
Proof.
  intros Hc Hw Hi Hn Hd. rewrite dispatch_open by assumption.
  split; [reflexivity|]. split.
  - now eexists.
  - left. unfold sending. simpl. rewrite Hi, Hn.
    repeat split; try assumption. now eexists.
Qed.

(** When [run] resumes in a streak: it calls [invokeSend] only after a
    failure and after the delay; and if no send is in flight, the streak
    goes on. *)
Lemma streak_resume (k : nat) (s s' : Loop) :
  streak d0 k s ->
  step delegate s Resume = Some s' ->
  (invocations s' = invocations s \/ backedOff d0 k s s') /\
  (inflight s = [] -> streak d0 k s').
Proof.
  intros (Hc & (older & Hlog) & Hphase) Hstep. simpl in Hstep.
  destruct (settled s) eqn:Hs; [|discriminate]. injection Hstep as <-.
  unfold settled in Hs.
  destruct Hphase as [Hph|[Hph|[Hph|Hph]]].
  - destruct Hph as (_ & (wd & Ha) & Hi & _).
    unfold resume. rewrite Ha, Hc. split; [now left|].
    intros E. rewrite Hi in E. discriminate.
  - destruct Hph as (m & -> & Hw & Hi & Hn & Hfail & Hd & Hwait).
    destruct Hwait as [(wd & Ha)|(wake & Ha)];
      unfold resume; rewrite Ha, Hc.
    + split; [now left|]. intros _.
      split; [exact Hc|]. split; [now exists older|].
      right; left. exists m. repeat split; try assumption.
      right. now eexists.
    + unfold debounced. simpl.
      destruct (counter s >=? theMaxConnections delegate).
      { split; [now left|]. intros _. split; [exact Hc|].
        split; [now exists older|]. right; right; right. now split. }
      unfold waitToSend. simpl. rewrite Hfail, orb_true_r.
      rewrite pace_open by exact Hc. cbv zeta. simpl.
      apply didLastSendRequestFail_iff in Hfail
        as (history & r & Hrec & Hr).
      rewrite Hrec, computeDelay_failed, <- Hrec by exact Hr.
      simpl fst. simpl snd. rewrite Hd.
      change (Z.min MAX_DELAY (backoff d0 m * 2)) with (backoff d0 (S m)).
      destruct (backoff d0 (S m) >? now s - lastSendTime s) eqn:E.
      { split; [now left|]. intros _. split; [exact Hc|].
        split; [now exists older|]. right; right; left.
        unfold pacing. simpl. repeat split; try assumption. lia. }
      { split.
        - right. rewrite dispatch_open by exact Hc. simpl.
          repeat split; [lia|lia].
        - intros _.
          apply dispatch_sending; simpl; try assumption; reflexivity. }
  - destruct Hph as (Hk & Hw & Hi & Hn & Hd & Ha).
    rewrite Ha, orb_false_r in Hs. unfold resume. rewrite Ha, Hc. split.
    + right. rewrite dispatch_open by exact Hc. simpl.
      repeat split; [assumption|assumption|]. rewrite <- Hd. lia.
    + intros _. apply dispatch_sending; assumption.
  - destruct Hph as (_ & Ha). rewrite Ha in Hs. discriminate.
Qed.

Lemma streak_step (k : nat) (s s' : Loop) (e : Event) :
  streak d0 k s ->
  failuresOnly e = true ->
  (e = Resume -> inflight s = []) ->
  step delegate s e = Some s' ->
  streak d0 (if isSendSettled e then S k else k) s'.
Proof.
  intros Hs He Hidle Hstep.
  destruct e as [| |ms| |begun outcome]; try discriminate.
  - (* send() *)
    simpl in Hstep. injection Hstep as <-.
    unfold streak, sending, retrying, pacing, starved in *. simpl.
    exact Hs.
  - (* time passes *)
    simpl in Hstep. destruct (ms <? 0); [discriminate|].
    injection Hstep as <-.
    unfold streak, sending, retrying, pacing, starved in *. simpl.
    exact Hs.
  - (* run resumes *)
    now apply (streak_resume k s s' Hs Hstep), Hidle.
  - (* a send fails *)
    destruct Hs as (Hc & (older & Hlog) & Hphase).
    simpl in He, Hstep |- *. apply negb_true_iff in He. subst outcome.
    destruct (removeFirst begun (inflight s)) as [rest|] eqn:Hrm;
      [|discriminate].
    injection Hstep as <-.
    destruct Hphase as [Hph|[Hph|[Hph|Hph]]].
    + destruct Hph as (Hw & (wd & Ha) & Hi & Hn & Hd).
      rewrite Hi in Hrm. simpl in Hrm.
      destruct (begun =? lastSendTime s); [|discriminate].
      injection Hrm as <-.
      unfold sendSettled. simpl. rewrite Hc. unfold JS.push.
      rewrite recovered_failed by reflexivity. simpl.
      unfold connectionAvailable. simpl. rewrite Hw. simpl.
      split; [reflexivity|]. split; [now exists older|].
      right; left. exists k. unfold retrying. simpl.
      rewrite didLastSendRequestFail_last. simpl.
      repeat split; try assumption; try lia.
      left. now exists wd.
    + destruct Hph as (m & _ & _ & Hi & _). rewrite Hi in Hrm. discriminate.
    + destruct Hph as (_ & _ & Hi & _). rewrite Hi in Hrm. discriminate.
    + destruct Hph as (Hi & _). rewrite Hi in Hrm. discriminate.
Qed.

Lemma streak_exec (events : list Event) :
  forall (k : nat) (s s' : Loop),
    streak d0 k s ->
    forallb failuresOnly events = true ->
    resumesWhenIdle delegate s events = true ->
    exec delegate s events = Some s' ->
    streak d0 (k + settledSends events) s'.
Proof.
  induction events as [|e events IH]; simpl; intros k s s' Hk Hall Hidle Hrun.
  - injection Hrun as <-. now rewrite Nat.add_0_r.
  - apply andb_prop in Hall as [He Hall].
    destruct (step delegate s e) as [s1|] eqn:Hstep; [|discriminate].
    assert (Hidle1 : (e = Resume -> inflight s = []) /\
                     resumesWhenIdle delegate s1 events = true).
    { destruct e, (inflight s); try discriminate; split;
        try assumption; try reflexivity; discriminate. }
    destruct Hidle1 as (Hidle0 & Hidle1).
    pose proof (streak_step k s s1 e Hk He Hidle0 Hstep) as Hk1.
    specialize (IH _ _ _ Hk1 Hall Hidle1 Hrun).
    unfold settledSends in *. simpl.
    destruct (isSendSettled e); simpl;
      [now rewrite Nat.add_succ_r|exact IH].
Qed.

End Backoff.

(** Left to its own retries, a loop without watchdog resumes only while no
    send is in flight: while one is, the pending resolver is unresolved
    and nothing else can end the pending wait. *)
Section OwnRetries.

Variable delegate : ConnectionLoopDelegate.
Hypothesis noWatchdog : watchdogTimer delegate = None.

Lemma onItsOwn_step (s s' : Loop) (e : Event) :
  onItsOwn s ->
  retryOnly e = true ->
  step delegate s e = Some s' ->
  (e = Resume -> inflight s = []) /\ onItsOwn s'.
Proof.
  intros (Hc & Hs) He Hstep.
  destruct e as [| |ms| |begun outcome]; try discriminate; simpl in *.
  - destruct (ms <? 0); [discriminate|]. injection Hstep as <-.
    split; [discriminate|]. split; [exact Hc|exact Hs].
  - destruct (settled s) eqn:Hsettled; [|discriminate].
    injection Hstep as <-. unfold settled in Hsettled.
    destruct Hs as [(Hi & Hp)|(_ & Ha & Hp)];
      [|rewrite Ha, Hp in Hsettled; discriminate].
    split; [now intros _|]. unfold resume. rewrite Hc.
    assert (Hdispatch :
      forall s1 : Loop,
        closed s1 = false -> inflight s1 = [] -> pendingResolver s1 = false ->
        onItsOwn (dispatch delegate s1)).
    { intros s1 H1 H2 H3. rewrite dispatch_open, noWatchdog by assumption.
      split; [reflexivity|]. right. simpl. rewrite H2.
      repeat split; try assumption. now eexists. }
    assert (Hwait :
      forall s1 : Loop,
        closed s1 = false -> inflight s1 = [] -> pendingResolver s1 = false ->
        onItsOwn (waitToSend delegate s1)).
    { intros s1 H1 H2 H3. unfold waitToSend.
      destruct (_ || _); [|now apply Hdispatch].
      rewrite pace_open by assumption. cbv zeta.
      destruct (_ >? _); [|now apply Hdispatch].
      split; [exact H1|]. left. simpl. now split. }
    destruct (awaiting s) as [wd|wake|r|wake r|] eqn:Ha.
    + split; [exact Hc|]. left. simpl. now split.
    + unfold debounced. simpl.
      destruct (counter s >=? theMaxConnections delegate).
      * split; [exact Hc|]. left. simpl. now split.
      * now apply Hwait.
    + now apply Hwait.
    + now apply Hdispatch.
    + split; [exact Hc|]. left. rewrite Ha. now split.
  - apply negb_true_iff in He. subst outcome.
    destruct (removeFirst begun (inflight s)) as [rest|] eqn:Hrm;
      [|discriminate].
    injection Hstep as <-. split; [discriminate|].
    destruct Hs as [(Hi & _)|((x & Hi) & Ha & Hp)];
      [rewrite Hi in Hrm; discriminate|].
    rewrite Hi in Hrm. simpl in Hrm.
    destruct (begun =? x); [|discriminate]. injection Hrm as <-.
    unfold sendSettled. simpl. rewrite Hc. unfold JS.push.
    rewrite recovered_failed by reflexivity. simpl.
    unfold connectionAvailable. simpl.
    destruct (waitingConnectionResolve s); simpl; rewrite ?Ha;
      (split; [reflexivity|]); left; simpl; now split.
Qed.

Lemma own_retries_resume_when_idle (events : list Event) :
  forall s s' : Loop,
    onItsOwn s ->
    forallb retryOnly events = true ->
    exec delegate s events = Some s' ->
    forallb failuresOnly events = true /\
    resumesWhenIdle delegate s events = true.
Proof.
  induction events as [|e events IH]; simpl; intros s s' Hs Hall Hexec;
    [now split|].
  apply andb_prop in Hall as [He Hall].
  destruct (step delegate s e) as [s1|] eqn:Hstep; [|discriminate].
  destruct (onItsOwn_step s s1 e Hs He Hstep) as (Hidle & Hs1).
  destruct (IH s1 s' Hs1 Hall Hexec) as (IH1 & IH2).
  split.
  - rewrite IH1, andb_true_r.
    destruct e as [| | | |begun outcome]; try discriminate; try reflexivity.
    exact He.
  - destruct e as [| | | |begun outcome]; try exact IH2;
      destruct (inflight s); try exact IH2.
    discriminate (Hidle eq_refl).
Qed.

End OwnRetries.

(** C2, as the code has it: take a loop, with or without watchdog, that
    has dispatched a single send while its delay was [d0], and a run in
    which every send fails, nobody calls [close()] and [run] resumes only
    while no send is in flight, so that the sends are sequential and each
    failure is followed by a pacing step of its own.  Then the dispatch
    after the [k]-th consecutive failure comes at least
    [min(60_000, d0 * 2^k)] ms after the dispatch before it; when [d0] is
    at least 15 ms, as the initial delay of 30 ms is, that is at least
    [min(60_000, 30 * 2^(k-1))] ms. *)
Theorem backoff_of_sequential_failures
    (delegate : ConnectionLoopDelegate) (s0 : Loop) (events : list Event)
    (s s' : Loop) (sent : Z) :
  justSent s0 ->
  forallb failuresOnly events = true ->
  resumesWhenIdle delegate s0 events = true ->
  exec delegate s0 events = Some s ->
  step delegate s Resume = Some s' ->
  invocations s' = sent :: invocations s ->
  let k := Z.of_nat (settledSends events) in
  1 <= k /\
  exists previous older,
    invocations s' = sent :: previous :: older /\
    Z.min 60000 (delay s0 * 2 ^ k) <= sent - previous /\
    (15 <= delay s0 -> Z.min 60000 (30 * 2 ^ (k - 1)) <= sent - previous).
Proof.
  intros (Hc & Hw & Ha & Hi & Hn & Hlog) Hall Hidle Hrun Hstep Hsent.
  assert (H0 : streak (delay s0) 0 s0).
  { split; [exact Hc|]. split; [exact Hlog|]. left. repeat split; assumption. }
  pose proof (streak_exec delegate (delay s0) events 0 s0 s H0 Hall Hidle
                Hrun) as Hs.
  simpl Nat.add in Hs.
  destruct (streak_resume delegate (delay s0) _ s s' Hs Hstep)
    as ([Hsame|(Hk & Hinv & Hd & Hwait)] & _).
  - exfalso. rewrite Hsame in Hsent.
    apply (f_equal (@List.length Z)) in Hsent. simpl in Hsent. lia.
  - destruct Hs as (_ & (older & Hlog') & _).
    rewrite Hinv in Hsent. injection Hsent as <-.
    cbv zeta. rewrite <- backoff_closed_form by exact Hk.
    split; [lia|].
    exists (lastSendTime s), older. rewrite Hinv, Hlog'.
    split; [reflexivity|]. split; [lia|].
    intros H15. pose proof (backoff_lower_bound (delay s0) _ Hk H15). lia.
Qed.

Lemma justSent_afterFirstSend : justSent afterFirstSend.
Proof.
  unfold justSent. simpl. repeat split; [now exists None|now exists []].
Qed.

Lemma justSent_afterFirstSendWatched : justSent afterFirstSendWatched.
Proof.
  unfold justSent. simpl.
  repeat split; [now exists (Some 60010)|now exists []].
Qed.

Lemma backoff_of_sequential_failures_witness :
  (exec defaults (newConnectionLoop defaults 0) firstSend
   = Some afterFirstSend /\
   justSent afterFirstSend /\
   forallb failuresOnly threeFailures = true /\
   resumesWhenIdle defaults afterFirstSend threeFailures = true /\
   exec defaults afterFirstSend threeFailures = Some beforeFourthSend /\
   step defaults beforeFourthSend Resume = Some afterFourthSend /\
   1 <= 3 /\
   exists previous older,
     invocations afterFourthSend = 430 :: previous :: older /\
     Z.min 60000 (30 * 2 ^ 3) <= 430 - previous /\
     (15 <= 30 -> Z.min 60000 (30 * 2 ^ (3 - 1)) <= 430 - previous)) /\
  (exec everyMinute (newConnectionLoop everyMinute 0) firstSend
   = Some afterFirstSendWatched /\
   justSent afterFirstSendWatched /\
   resumesWhenIdle everyMinute afterFirstSendWatched threeFailures = true /\
   exec everyMinute afterFirstSendWatched threeFailures
   = Some beforeFourthSend /\
   step everyMinute beforeFourthSend Resume = Some afterFourthSendWatched /\
   exists previous older,
     invocations afterFourthSendWatched = 430 :: previous :: older /\
     Z.min 60000 (30 * 2 ^ 3) <= 430 - previous /\
     (15 <= 30 -> Z.min 60000 (30 * 2 ^ (3 - 1)) <= 430 - previous)).
Proof.
  split.
  - split; [reflexivity|]. split; [exact justSent_afterFirstSend|].
    split; [reflexivity|]. split; [reflexivity|]. split; [reflexivity|].
    split; [reflexivity|].
    apply (backoff_of_sequential_failures defaults afterFirstSend
             threeFailures beforeFourthSend afterFourthSend 430);
      try reflexivity.
    exact justSent_afterFirstSend.
  - split; [reflexivity|]. split; [exact justSent_afterFirstSendWatched|].
    split; [reflexivity|]. split; [reflexivity|]. split; [reflexivity|].
    apply (backoff_of_sequential_failures everyMinute afterFirstSendWatched
             threeFailures beforeFourthSend afterFourthSendWatched 430);
      try reflexivity.
    exact justSent_afterFirstSendWatched.
Defined.

(** C2 fails on the code, in two ways.  After three sends in parallel
    have failed, which makes three consecutive failed outcomes by 75 ms,
    the loop has doubled its delay once, to 60 ms, and calls [invokeSend]
    again at 130 ms: 60 ms after the send before and 55 ms after the
    failures, where the claim asks for [min(60_000, 30 * 2^2) = 120] ms.
    And after a pacing step has set the delay to 0, from the duration of a
    single quick success, three sequential failures leave it at 0: the
    sends go out at 31, 42, 53 and 64 ms, 11 ms apart. *)
Lemma failures_without_the_backoff :
  (exists s s',
     exec defaults (newConnectionLoop defaults 0) threeParallelFailures
     = Some s /\
     step defaults s Resume = Some s' /\
     sendRecords s = [failed 65; failed 35; failed 5] /\
     consecutiveFailures (sendRecords s) = 3%nat /\
     invocations s = [70; 40; 10] /\
     invocations s' = [130; 70; 40; 10] /\
     delay s' = 60 /\
     130 - 70 < Z.min 60000 (30 * 2 ^ (3 - 1))) /\
  (exists s s',
     exec defaults (newConnectionLoop defaults 0) delayOfZero
     = Some afterDelayOfZero /\
     justSent afterDelayOfZero /\
     resumesWhenIdle defaults afterDelayOfZero threeQuickFailures = true /\
     exec defaults afterDelayOfZero threeQuickFailures = Some s /\
     step defaults s Resume = Some s' /\
     consecutiveFailures (sendRecords s) = 3%nat /\
     invocations s' = [64; 53; 42; 31; 21; 10] /\
     delay s' = 0 /\
     64 - 53 < Z.min 60000 (30 * 2 ^ (3 - 1))).
Proof.
  split.
  - eexists. eexists. split; [vm_compute; reflexivity|].
    split; [vm_compute; reflexivity|]. vm_compute. repeat split.
  - eexists. eexists. split; [reflexivity|].
    split; [unfold justSent; simpl; repeat split;
            [now exists None|now eexists]|].
    split; [reflexivity|].
    split; [vm_compute; reflexivity|].
    split; [vm_compute; reflexivity|]. vm_compute. repeat split.
Qed.

(** ** The size of the history *)

(** C3: eleven isolated successful sends leave eleven records in the
    history, since recording an outcome prunes nothing; the pacing step of
    the next iteration then prunes, removes the oldest record only and
    leaves ten, more than [CONNECTION_MEMORY_COUNT]; the median it computes
    is over these ten. *)
Theorem history_exceeds_memory_count :
  exists s s',
    exec defaults (newConnectionLoop defaults 0) elevenSendsAndTwo = Some s /\
    step defaults s Resume = Some s' /\
    sendRecords s = repeat (okr 5) 11 /\
    sendRecords s' = JS.shift (sendRecords s) /\
    length_ (sendRecords s') = 10 /\
    CONNECTION_MEMORY_COUNT < length_ (sendRecords s') /\
    computeDelayAndUpdateDurations 30 3 (repeat (okr 5) 11)
    = (1, repeat (okr 5) 10).
Proof.
  eexists. eexists. split; [vm_compute; reflexivity|].
  split; [vm_compute; reflexivity|]. vm_compute. repeat split.
Qed.

(** ** Further properties of the delay *)

Lemma sort_In (v : Z) (l : list Z) : In v (JS.sort l) -> In v l.
Proof. apply Permutation_in, sort_permutation. Qed.

Lemma sort_length (l : list Z) : List.length (JS.sort l) = List.length l.
Proof. apply Permutation_length, sort_permutation. Qed.

(** X7: the median of a non-empty array of numbers is a number, and it lies
    between any two bounds of the elements, however [sort()] has arranged
    them. *)
Theorem median_between_bounds (values : list Z) (lo hi : Z) :
  values <> [] ->
  (forall v, In v values -> lo <= v <= hi) ->
  exists med,
    median values = Some med /\ (inject_Z lo <= med /\ med <= inject_Z hi)%Q.
Proof.
  intros Hne Hall. unfold median.
  set (sorted := JS.sort values).
  assert (Hin : forall i v, JS.at_ sorted i = Some v -> lo <= v <= hi).
  { intros i v H. apply Hall, sort_In. unfold JS.at_ in H.
    destruct (i <? 0); [discriminate|]. eapply nth_error_In, H. }
  assert (Hlen : (0 < List.length sorted)%nat).
  { subst sorted. rewrite sort_length.
    destruct values; [contradiction|simpl; lia]. }
  unfold length_. rewrite mod2_odd, shiftr_div2, at_of_nat.
  pose proof (Nat.lt_div2 _ Hlen) as Hhalf.
  destruct (nth_error sorted (Nat.div2 (List.length sorted))) as [b|] eqn:Hb;
    [|apply nth_error_None in Hb; lia].
  assert (Hb' : lo <= b <= hi).
  { apply (Hin (Z.of_nat (Nat.div2 (List.length sorted)))).
    now rewrite at_of_nat. }
  destruct (Nat.odd (List.length sorted)) eqn:Hodd.
  - exists (inject_Z b). split; [reflexivity|].
    unfold Qle. simpl. lia.
  - destruct (Nat.div2 (List.length sorted)) as [|h] eqn:Hh.
    + exfalso. rewrite (Nat.div2_odd (List.length sorted)), Hh, Hodd in Hlen.
      simpl in Hlen. lia.
    + replace (Z.of_nat (S h) - 1) with (Z.of_nat h) by lia.
      rewrite at_of_nat.
      destruct (nth_error sorted h) as [a|] eqn:Ha;
        [|apply nth_error_None in Ha; lia].
      assert (Ha' : lo <= a <= hi).
      { apply (Hin (Z.of_nat h)). now rewrite at_of_nat. }
      eexists. split; [reflexivity|]. unfold Qle. simpl. lia.
Qed.

Lemma median_between_bounds_witness :
  exists med,
    median [100; 9; 10; 250] = Some med /\
    (inject_Z 9 <= med /\ med <= inject_Z 250)%Q.
Proof.
  apply (median_between_bounds [100; 9; 10; 250] 9 250); [discriminate|].
  intros v Hv. simpl in Hv.
  destruct Hv as [<-|[<-|[<-|[<-|[]]]]]; lia.
Defined.

Lemma divToInt32_of_integer (d m : Z) :
  0 < m -> 0 <= d < 2 ^ 31 ->
  JS.divToInt32 (Some (inject_Z d)) m = d / m.
Proof.
  intros Hm Hd. rewrite divToInt32_floor; [|assumption|simpl; lia].
  destruct m as [|p|p]; try lia.
  unfold Spec.floor. simpl. rewrite Z.mul_1_r. reflexivity.
Qed.

(** X1: after a single successful send, with a positive number of
    connections and a duration that is not negative and below 2^31 ms, the
    delay is the integer quotient of the duration by the number of
    connections, whatever the delay was; the array is left as it is. *)
Theorem delay_of_single_success (delay maxConnections : Z) (r : SendRecord) :
  ok r = true ->
  0 < maxConnections ->
  0 <= duration r < 2 ^ 31 ->
  computeDelayAndUpdateDurations delay maxConnections [r]
  = (duration r / maxConnections, [r]).
Proof.
  intros Hr Hm Hd. rewrite computeDelay_single by assumption.
  now rewrite divToInt32_of_integer.
Qed.

Lemma delay_of_single_success_witness :
  ok (okr 100) = true /\ 0 < 3 /\ 0 <= duration (okr 100) < 2 ^ 31 /\
  computeDelayAndUpdateDurations 480 3 [okr 100] = (100 / 3, [okr 100]).
Proof.
  split; [reflexivity|]. split; [lia|]. split; [simpl; lia|].
  apply (delay_of_single_success 480 3 (okr 100)); [reflexivity|lia|simpl; lia].
Defined.

(** X2: with no connection allowed ([maxConnections] is 0) the division of
    the duration or of the median is a division by zero, and the delay of
    a history that ends in a success, and is no recovery, is 0. *)
Theorem delay_without_connections
    (delay : Z) (history : list SendRecord) (r : SendRecord) :
  ok r = true ->
  recovered (history ++ [r]) = false ->
  fst (computeDelayAndUpdateDurations delay 0 (history ++ [r])) = 0.
Proof.
  intros Hr Hrec.
  destruct (array_end history) as [->|(front & p & ->)].
  - simpl app. now rewrite computeDelay_single.
  - rewrite recovered_last, Hr, andb_true_r in Hrec.
    rewrite computeDelay_several by assumption. cbv zeta. rewrite Hrec.
    simpl fst. unfold JS.divToInt32. now destruct (median _).
Qed.

Lemma delay_without_connections_witness :
  ok (okr 70) = true /\ recovered ([okr 50; okr 60] ++ [okr 70]) = false /\
  fst (computeDelayAndUpdateDurations 30 0 ([okr 50; okr 60] ++ [okr 70])) = 0.
Proof.
  split; [reflexivity|]. split; [reflexivity|].
  apply (delay_without_connections 30 [okr 50; okr 60] (okr 70)); reflexivity.
Defined.

(** X4: right after an outcome has been pushed on the history, the history
    is a recovery exactly when the last request before had failed and the
    new outcome is ok. *)
Theorem recovered_after_push (sendRecords : list SendRecord) (r : SendRecord) :
  recovered (JS.push sendRecords r)
  = didLastSendRequestFail sendRecords && ok r.
Proof.
  unfold JS.push.
  destruct (array_end sendRecords) as [->|(front & p & ->)].
  - reflexivity.
  - now rewrite recovered_last, didLastSendRequestFail_last.
Qed.

(** X5: the backoff never lowers a delay between 0 and 60_000 and never
    leads above 60_000; it leaves the delay as it is in two cases only, at
    the cap and at 0, from where no number of failures raises it. *)
Theorem backoff_is_monotone_and_capped
    (delay maxConnections : Z) (history : list SendRecord) (r : SendRecord) :
  ok r = false ->
  0 <= delay <= 60000 ->
  let delay' :=
    fst (computeDelayAndUpdateDurations delay maxConnections (history ++ [r]))
  in
  delay <= delay' <= 60000 /\
  (delay' = delay <-> delay = 0 \/ delay = 60000).
Proof.
  intros Hr Hd. cbv zeta. rewrite computeDelay_failed by assumption.
  simpl fst. unfold MAX_DELAY. lia.
Qed.

Lemma backoff_is_monotone_and_capped_witness :
  ok (failed 4) = false /\ 0 <= 0 <= 60000 /\
  fst (computeDelayAndUpdateDurations 0 3 ([okr 1] ++ [failed 4])) = 0.
Proof.
  split; [reflexivity|]. split; [lia|].
  apply (backoff_is_monotone_and_capped 0 3 [okr 1] (failed 4));
    [reflexivity|lia|now left].
Defined.

Lemma divToInt32_range (med : Q) (m bound : Z) :
  0 < m -> bound < 2 ^ 31 ->
  (inject_Z 0 <= med /\ med <= inject_Z bound)%Q ->
  0 <= JS.divToInt32 (Some med) m <= bound.
Proof.
  intros Hm Hb [Hlo Hhi]. unfold Qle in Hlo, Hhi. simpl in Hlo, Hhi.
  rewrite divToInt32_floor; [|assumption|nia].
  destruct m as [|p|p]; try lia. destruct med as [n d].
  unfold Spec.floor. simpl in *. rewrite Z.mul_1_r. split.
  - apply Z.div_pos; lia.
  - apply Z.div_le_upper_bound; [lia|]. rewrite Pos2Z.inj_mul. nia.
Qed.

Lemma last_in_pruned (history : list SendRecord) (p r : SendRecord) :
  In r (prune ((history ++ [p]) ++ [r])).
Proof.
  unfold prune. destruct (length_ _ >? _).
  - destruct (history ++ [p]) as [|oldest rest] eqn:E.
    + destruct history; discriminate.
    + simpl. apply in_or_app. right. now left.
  - apply in_or_app. right. now left.
Qed.

Lemma in_pruned (sendRecords : list SendRecord) (r : SendRecord) :
  In r (prune sendRecords) -> In r sendRecords.
Proof.
  unfold prune. destruct (length_ _ >? _); [|tauto].
  destruct sendRecords; simpl; tauto.
Qed.

(** X3: with a positive number of connections, a delay that is not
    negative and successful sends that took between 0 and a bound below
    2^31 ms, the new delay is not negative and at most the largest of the
    old delay, 60_000 and the bound. *)
Theorem delay_stays_in_range
    (delay maxConnections bound : Z) (sendRecords : list SendRecord) :
  0 <= delay ->
  0 < maxConnections ->
  bound < 2 ^ 31 ->
  (forall r, In r sendRecords -> ok r = true -> 0 <= duration r <= bound) ->
  0 <= fst (computeDelayAndUpdateDurations delay maxConnections sendRecords)
    <= Z.max delay (Z.max 60000 bound).
Proof.
  intros Hd Hm Hb Hall.
  destruct (array_end sendRecords) as [->|(front & r & ->)].
  - simpl. lia.
  - destruct (ok r) eqn:Hr.
    + assert (Hrd : 0 <= duration r <= bound).
      { apply Hall; [|assumption]. apply in_or_app. right. now left. }
      destruct (array_end front) as [->|(history & p & ->)].
      * simpl app. rewrite computeDelay_single by assumption. cbn [fst].
        rewrite divToInt32_of_integer by lia.
        assert (0 <= duration r / maxConnections <= duration r).
        { split; [apply Z.div_pos; lia|].
          apply Z.div_le_upper_bound; [lia|nia]. }
        lia.
      * rewrite computeDelay_several by assumption. cbv zeta.
        destruct (negb (ok p)); cbn [fst]; [unfold MIN_DELAY; lia|].
        set (records := prune ((history ++ [p]) ++ [r])).
        destruct (median_between_bounds
                    (map duration (filter ok records)) 0 bound)
          as (med & -> & Hmed).
        { intros E. apply map_eq_nil in E.
          assert (Hin : In r (filter ok records)).
          { apply filter_In. split; [apply last_in_pruned|assumption]. }
          rewrite E in Hin. contradiction. }
        { intros v Hv. apply in_map_iff in Hv as (x & <- & Hx).
          apply filter_In in Hx as (Hx & Hok).
          apply Hall; [|assumption]. now apply in_pruned. }
        pose proof (divToInt32_range med maxConnections bound Hm Hb Hmed).
        lia.
    + rewrite computeDelay_failed by assumption. cbn [fst].
      unfold MAX_DELAY. lia.
Qed.

Lemma delay_stays_in_range_witness :
  0 <= fst (computeDelayAndUpdateDurations 30 3 [okr 9; okr 10; okr 100])
    <= Z.max 30 (Z.max 60000 100).
Proof.
  apply (delay_stays_in_range 30 3 100 [okr 9; okr 10; okr 100]); try lia.
  intros r Hr _. simpl in Hr.
  destruct Hr as [<-|[<-|[<-|[]]]]; simpl; lia.
Defined.

Lemma recompute_snd_inert (k : nat) :
  forall (delay m : Z) (sendRecords : list SendRecord),
    (forall d, snd (computeDelayAndUpdateDurations d m sendRecords)
               = sendRecords) ->
    snd (recompute k delay m sendRecords) = sendRecords.
Proof.
  induction k as [|k IH]; intros delay m sendRecords Hsame; [reflexivity|].
  simpl. specialize (Hsame delay) as Hstep.
  destruct (computeDelayAndUpdateDurations delay m sendRecords) as [d' r'].
  simpl in Hstep. subst r'. now apply IH.
Qed.

Lemma recompute_succ (k : nat) (delay m : Z) (sendRecords : list SendRecord) :
  recompute (S k) delay m sendRecords
  = recompute k
      (fst (computeDelayAndUpdateDurations delay m sendRecords)) m
      (snd (computeDelayAndUpdateDurations delay m sendRecords)).
Proof.
  simpl. now destruct (computeDelayAndUpdateDurations delay m sendRecords).
Qed.

(** X6: on a history of [n] records whose last record is ok, [k] calls in a
    row remove the oldest record one call at a time, until nine records
    are left: the array after the calls holds the [n - min(k, n - 9)] most
    recent records. *)
Theorem repeated_calls_prune_to_nine (k : nat) :
  forall (delay maxConnections : Z) (history : list SendRecord)
         (previous last : SendRecord),
    ok last = true ->
    let sendRecords := history ++ [previous; last] in
    snd (recompute k delay maxConnections sendRecords)
    = skipn (Nat.min k (List.length sendRecords - 9)) sendRecords.
Proof.
  induction k as [|k IH]; intros delay m history p r Hr; cbv zeta;
    [reflexivity|].
  assert (Hsnd : forall d,
             snd (computeDelayAndUpdateDurations d m (history ++ [p; r]))
             = prune (history ++ [p; r])).
  { intros d. replace (history ++ [p; r]) with ((history ++ [p]) ++ [r])
      by (rewrite <- app_assoc; reflexivity).
    rewrite computeDelay_several by assumption. cbv zeta.
    now destruct (negb (ok p)). }
  rewrite recompute_succ, Hsnd. unfold prune.
  destruct (length_ (history ++ [p; r]) >? CONNECTION_MEMORY_COUNT) eqn:Hlong.
  - apply Z.gtb_lt in Hlong.
    unfold length_, CONNECTION_MEMORY_COUNT in Hlong.
    destruct history as [|oldest rest].
    { simpl in Hlong. lia. }
    change ((oldest :: rest) ++ [p; r]) with (oldest :: (rest ++ [p; r])) in *.
    unfold JS.shift, tl. rewrite IH by assumption. cbv zeta.
    change (List.length (oldest :: rest ++ [p; r]))
      with (S (List.length (rest ++ [p; r]))) in *.
    replace (S (List.length (rest ++ [p; r])) - 9)%nat
      with (S (List.length (rest ++ [p; r]) - 9)) by lia.
    rewrite <- Nat.succ_min_distr. reflexivity.
  - rewrite Z.gtb_ltb in Hlong. apply Z.ltb_ge in Hlong.
    unfold length_, CONNECTION_MEMORY_COUNT in Hlong.
    rewrite recompute_snd_inert.
    + replace (List.length (history ++ [p; r]) - 9)%nat with 0%nat by lia.
      now rewrite Nat.min_0_r.
    + intros d. rewrite Hsnd. unfold prune, length_, CONNECTION_MEMORY_COUNT.
      destruct (Z.of_nat (List.length (history ++ [p; r])) >? 9) eqn:E;
        [|reflexivity].
      apply Z.gtb_lt in E. lia.
Qed.

Lemma repeated_calls_prune_to_nine_witness :
  ok (okr 5) = true /\
  snd (recompute 5 30 3 (repeat (okr 5) 10 ++ [okr 5; okr 5]))
  = repeat (okr 5) 9.
Proof.
  split; [reflexivity|].
  apply (repeated_calls_prune_to_nine 5 30 3 (repeat (okr 5) 10)
           (okr 5) (okr 5)).
  reflexivity.
Defined.

(** ** What every reachable state of the loop satisfies *)

Section Consistency.

Variable delegate : ConnectionLoopDelegate.

Lemma removeFirst_length (x : Z) (l rest : list Z) :
  removeFirst x l = Some rest -> List.length l = S (List.length rest).
Proof.
  revert rest. induction l as [|y l IH]; simpl; intros rest H; [discriminate|].
  destruct (x =? y); [now injection H as <-|].
  destruct (removeFirst x l) as [rest'|]; [|discriminate].
  injection H as <-. simpl. f_equal. now apply IH.
Qed.

Lemma consistent_new (t : Z) : consistent delegate (newConnectionLoop delegate t).
Proof.
  unfold newConnectionLoop, run, loopHead, consistent. simpl.
  repeat split; try reflexivity; lia.
Qed.

Lemma consistent_dispatch (s : Loop) :
  closed s = false ->
  counter s = Z.of_nat (List.length (inflight s)) ->
  counter s < Z.max 0 (theMaxConnections delegate) ->
  waitingConnectionResolve s = false ->
  consistent delegate (dispatch delegate s).
Proof.
  intros Hc Hn Hlt Hw. rewrite dispatch_open by assumption.
  unfold consistent. simpl. repeat split; try lia; assumption.
Qed.

Lemma consistent_waitToSend (s : Loop) :
  closed s = false ->
  counter s = Z.of_nat (List.length (inflight s)) ->
  counter s < Z.max 0 (theMaxConnections delegate) ->
  waitingConnectionResolve s = false ->
  match invocations s with
  | [] => inflight s = [] /\ sendRecords s = []
  | t :: _ => t = lastSendTime s
  end ->
  consistent delegate (waitToSend delegate s).
Proof.
  intros Hc Hn Hlt Hw Hlog. unfold waitToSend.
  destruct ((counter s >? 0) || didLastSendRequestFail (sendRecords s))
    eqn:Hcond; [|now apply consistent_dispatch].
  assert (Hne : invocations s <> []).
  { intros E. rewrite E in Hlog. destruct Hlog as (Hi & Hr).
    rewrite Hr, Hn, Hi in Hcond. discriminate. }
  rewrite pace_open by assumption. cbv zeta.
  destruct (computeDelayAndUpdateDurations _ _ _) as [d records]. simpl.
  destruct (d >? now s - lastSendTime s).
  - unfold consistent. simpl.
    destruct (invocations s) as [|t older]; [contradiction|].
    repeat split; try lia; try assumption; discriminate.
  - apply consistent_dispatch; assumption.
Qed.

Lemma consistent_step (s s' : Loop) (e : Event) :
  consistent delegate s ->
  step delegate s e = Some s' ->
  consistent delegate s'.
Proof.
  intros (I1 & I2 & I3 & I4 & I5 & I6) Hstep.
  destruct e as [| |ms| |begun outcome]; simpl in Hstep.
  - injection Hstep as <-. unfold consistent. simpl. now repeat split.
  - injection Hstep as <-. unfold consistent. simpl.
    repeat split; try assumption. discriminate.
  - destruct (ms <? 0); [discriminate|]. injection Hstep as <-.
    unfold consistent. simpl. now repeat split.
  - destruct (settled s) eqn:Hs; [|discriminate]. injection Hstep as <-.
    unfold settled in Hs. unfold resume.
    destruct (closed s) eqn:Hc.
    + destruct (awaiting s) as [wd|wake|[|]|wake r|] eqn:Ha;
        try discriminate;
        unfold consistent; simpl; rewrite Hc;
        repeat split; try assumption; try discriminate; tauto.
    + specialize (I2 eq_refl).
      destruct (awaiting s) as [wd|wake|[|]|wake r|] eqn:Ha;
        try discriminate.
      * unfold consistent. simpl. rewrite Hc.
        repeat split; try assumption. intros _. assumption.
      * unfold debounced. simpl.
        destruct (counter s >=? theMaxConnections delegate) eqn:Hfull.
        -- unfold consistent. simpl. rewrite Hc.
           repeat split; try assumption; [intros _; assumption|lia].
        -- apply consistent_waitToSend; simpl; try assumption. lia.
      * destruct I6 as (Hw & Hlt). now apply consistent_waitToSend.
      * destruct I6 as (Hw & Hlt & _). now apply consistent_dispatch.
  - destruct (removeFirst begun (inflight s)) as [rest|] eqn:Hrm;
      [|discriminate].
    injection Hstep as <-.
    pose proof (removeFirst_length _ _ _ Hrm) as Hlen.
    destruct s as [c p w records d l n a flight nw log]. simpl in *.
    destruct log as [|t older].
    { destruct I5 as (-> & _). discriminate. }
    unfold sendSettled. simpl. destruct c.
    + unfold consistent. simpl.
      repeat split; try assumption; try lia; discriminate.
    + specialize (I2 eq_refl).
      unfold connectionAvailable, resolveRecover. simpl.
      destruct (recovered _), a as [wd|wake|[|]|wake r|], w, outcome;
        simpl; unfold consistent; simpl;
        repeat split; try assumption; try lia; try discriminate;
        try tauto; try (intros _; lia);
        destruct I6; try discriminate; try tauto; lia.
Qed.

Lemma consistent_exec (events : list Event) :
  forall s s' : Loop,
    consistent delegate s ->
    exec delegate s events = Some s' ->
    consistent delegate s'.
Proof.
  induction events as [|e events IH]; simpl; intros s s' Hs Hexec.
  - now injection Hexec as <-.
  - destruct (step delegate s e) as [s1|] eqn:Hstep; [|discriminate].
    eapply IH; [|exact Hexec]. eapply consistent_step; eassumption.
Qed.

End Consistency.

(** ** Admission control *)

(** X8: in every state that a loop reaches, the number of sends in flight
    is at most [maxConnections] (and 0 if that is negative), and as long as
    the loop is not closed the counter is that number. *)
Theorem sends_in_flight_are_bounded
    (delegate : ConnectionLoopDelegate) (t : Z) (events : list Event)
    (s : Loop) :
  exec delegate (newConnectionLoop delegate t) events = Some s ->
  Z.of_nat (List.length (inflight s))
  <= Z.max 0 (theMaxConnections delegate) /\
  (closed s = false -> counter s = Z.of_nat (List.length (inflight s))).
Proof.
  intros Hexec.
  destruct (consistent_exec delegate events _ _ (consistent_new delegate t)
              Hexec) as (I1 & I2 & I3 & _).
  split; [lia|exact I2].
Qed.

Lemma sends_in_flight_are_bounded_witness :
  exec defaults (newConnectionLoop defaults 0) connectionWait
  = Some waitingForConnection /\
  Z.of_nat (List.length (inflight waitingForConnection))
  <= Z.max 0 (theMaxConnections defaults).
Proof.
  split; [reflexivity|].
  apply (sends_in_flight_are_bounded defaults 0 connectionWait
           waitingForConnection).
  reflexivity.
Defined.

(** X9: a loop that is allowed no connection ([maxConnections] is 0 or
    less) never calls [invokeSend], whatever happens. *)
Theorem no_connection_no_send
    (delegate : ConnectionLoopDelegate) (t : Z) (events : list Event)
    (s : Loop) :
  theMaxConnections delegate <= 0 ->
  exec delegate (newConnectionLoop delegate t) events = Some s ->
  invocations s = [].
Proof.
  intros Hm Hexec.
  destruct (consistent_exec delegate events _ _ (consistent_new delegate t)
              Hexec) as (_ & _ & _ & I4 & _).
  exact (I4 Hm).
Qed.

Lemma no_connection_no_send_witness :
  theMaxConnections (mkDelegate None (Some 0) None) <= 0 /\
  exec (mkDelegate None (Some 0) None)
    (newConnectionLoop (mkDelegate None (Some 0) None) 0)
    [Send; Resume; Elapse 10; Resume; Elapse 1000; Send]
  = Some (mkLoop false true true [] 30 0 0 (AwaitConnection false) [] 1010 [])
  /\
  invocations
    (mkLoop false true true [] 30 0 0 (AwaitConnection false) [] 1010 [])
  = [].
Proof.
  split; [unfold theMaxConnections; simpl; lia|]. split; [reflexivity|].
  apply (no_connection_no_send (mkDelegate None (Some 0) None) 0
           [Send; Resume; Elapse 10; Resume; Elapse 1000; Send]);
    [unfold theMaxConnections; simpl; lia|reflexivity].
Defined.

(** X10: a loop that is not closed waits for an available connection only
    while exactly [maxConnections] sends are in flight; it cannot resume
    by itself, and it can as soon as any one of these sends has settled,
    whatever the outcome. *)
Theorem connection_wait_ends_with_a_send
    (delegate : ConnectionLoopDelegate) (t : Z) (events : list Event)
    (s : Loop) (begun : Z) (outcome : bool) :
  exec delegate (newConnectionLoop delegate t) events = Some s ->
  awaiting s = AwaitConnection false ->
  closed s = false ->
  0 < theMaxConnections delegate ->
  In begun (inflight s) ->
  settled s = false /\
  Z.of_nat (List.length (inflight s)) = theMaxConnections delegate /\
  exists s',
    step delegate s (SendSettled begun outcome) = Some s' /\
    settled s' = true /\
    counter s' = theMaxConnections delegate - 1.
Proof.
  intros Hexec Ha Hc Hm Hin.
  destruct (consistent_exec delegate events _ _ (consistent_new delegate t)
              Hexec) as (I1 & I2 & I3 & _ & _ & I6).
  rewrite Ha in I6. destruct I6 as (Hw & Hfull). specialize (I2 Hc).
  split; [unfold settled; now rewrite Ha|]. split; [lia|].
  destruct (removeFirst_In begun (inflight s) Hin) as (rest & Hrest).
  eexists. simpl. rewrite Hrest. split; [reflexivity|].
  destruct s as [c p w records d l n a flight nw log]. simpl in *.
  subst c a w. unfold sendSettled, connectionAvailable, resolveRecover.
  simpl. destruct (recovered _), outcome; simpl; split; try reflexivity; lia.
Qed.

Lemma connection_wait_ends_with_a_send_witness :
  exec defaults (newConnectionLoop defaults 0) connectionWait
  = Some waitingForConnection /\
  In 40 (inflight waitingForConnection) /\
  settled waitingForConnection = false /\
  exists s',
    step defaults waitingForConnection (SendSettled 40 true) = Some s' /\
    settled s' = true /\
    counter s' = theMaxConnections defaults - 1.
Proof.
  assert (Hin : In 40 (inflight waitingForConnection))
    by (simpl; right; now left).
  split; [reflexivity|]. split; [exact Hin|].
  destruct (connection_wait_ends_with_a_send defaults 0 connectionWait
              waitingForConnection 40 true eq_refl eq_refl eq_refl)
    as (Hs & _ & Hex); [reflexivity|exact Hin|].
  split; [exact Hs|exact Hex].
Defined.

(** ** Pacing *)

(** X11: when a loop that is not closed resumes from a pacing sleep that no
    recovery has cut short, it calls [invokeSend] at once, and at least
    [delay] ms after its call before. *)
Theorem paced_send_keeps_the_delay
    (delegate : ConnectionLoopDelegate) (t : Z) (events : list Event)
    (s s' : Loop) (wake : Z) :
  exec delegate (newConnectionLoop delegate t) events = Some s ->
  awaiting s = AwaitPace wake false ->
  closed s = false ->
  step delegate s Resume = Some s' ->
  exists previous older,
    invocations s = previous :: older /\
    invocations s' = now s :: previous :: older /\
    delay s <= now s - previous /\
    delay s' = delay s.
Proof.
  intros Hexec Ha Hc Hstep.
  destruct (consistent_exec delegate events _ _ (consistent_new delegate t)
              Hexec) as (_ & _ & _ & _ & I5 & I6).
  rewrite Ha in I6. destruct I6 as (_ & _ & Hwake & Hne).
  destruct (invocations s) as [|previous older] eqn:Hlog; [contradiction|].
  simpl in Hstep. unfold settled in Hstep. rewrite Ha, orb_false_r in Hstep.
  destruct (wake <=? now s) eqn:Hover; [|discriminate].
  injection Hstep as <-. unfold resume. rewrite Ha, Hc.
  rewrite dispatch_open by assumption. simpl.
  exists previous, older. rewrite Hlog. repeat split. lia.
Qed.

Lemma paced_send_keeps_the_delay_witness :
  exec defaults (newConnectionLoop defaults 0) (pacingSleep ++ [Elapse 20])
  = Some pacingSleepOver /\
  exists s',
    step defaults pacingSleepOver Resume = Some s' /\
    exists previous older,
      invocations pacingSleepOver = previous :: older /\
      invocations s' = now pacingSleepOver :: previous :: older /\
      delay pacingSleepOver <= now pacingSleepOver - previous /\
      delay s' = delay pacingSleepOver.
Proof.
  split; [reflexivity|]. eexists. split; [reflexivity|].
  apply (paced_send_keeps_the_delay defaults 0 (pacingSleep ++ [Elapse 20])
           pacingSleepOver _ 40); reflexivity.
Defined.

(** X12: while a loop that is not closed sleeps in its pacing step, a send
    that settles cuts the sleep short exactly when it is a recovery, that
    is when it succeeds after a failure; the loop then calls [invokeSend]
    as soon as it resumes, before the end of the delay. *)
Theorem recovery_ends_the_pacing_sleep
    (delegate : ConnectionLoopDelegate) (s : Loop) (wake : Z) (r : bool)
    (begun : Z) (outcome : bool) :
  closed s = false ->
  awaiting s = AwaitPace wake r ->
  In begun (inflight s) ->
  exists s1,
    step delegate s (SendSettled begun outcome) = Some s1 /\
    settled s1
    = settled s || (didLastSendRequestFail (sendRecords s) && outcome) /\
    (settled s1 = true ->
     exists s2,
       step delegate s1 Resume = Some s2 /\
       invocations s2 = now s :: invocations s).
Proof.
  intros Hc Ha Hin.
  destruct (removeFirst_In begun (inflight s) Hin) as (rest & Hrest).
  eexists. simpl. rewrite Hrest. split; [reflexivity|].
  destruct s as [c p w records d l n a flight nw log]. simpl in *.
  subst c a. unfold sendSettled. simpl.
  rewrite recovered_after_push. simpl.
  assert (Hfinal :
    forall (b : bool) (s1 : Loop),
      closed s1 = false -> awaiting s1 = AwaitPace wake b ->
      now s1 = nw -> invocations s1 = log ->
      settled s1 = (wake <=? nw) || b /\
      (settled s1 = true ->
       exists s2, (if settled s1 then Some (resume delegate s1) else None)
                  = Some s2 /\
                  invocations s2 = nw :: log)).
  { intros b s1 H1 H2 H3 H4. unfold settled. rewrite H2, H3.
    split; [reflexivity|]. intros ->. eexists. split; [reflexivity|].
    unfold resume. rewrite H2, H1, dispatch_open by assumption. simpl.
    now rewrite H3, H4. }
  unfold settled at 2. simpl.
  unfold connectionAvailable, resolveRecover.
  destruct (didLastSendRequestFail records), outcome, w; simpl;
    rewrite ?orb_false_r, ?orb_true_r;
    match goal with
    | |- settled ?s1 = ?rhs /\ _ =>
        let b := match rhs with
                 | true => constr:(true)
                 | _ => constr:(r)
                 end in
        destruct (Hfinal b s1 eq_refl eq_refl eq_refl eq_refl) as (H1 & H2)
    end;
    (split; [rewrite H1; now rewrite ?orb_true_r|exact H2]).
Qed.

Lemma recovery_ends_the_pacing_sleep_witness :
  exec defaults (newConnectionLoop defaults 0) failureThenPacing
  = Some pacingAfterFailure /\
  In 40 (inflight pacingAfterFailure) /\
  settled pacingAfterFailure = false /\
  exists s1,
    step defaults pacingAfterFailure (SendSettled 40 true) = Some s1 /\
    settled s1 = true /\
    exists s2,
      step defaults s1 Resume = Some s2 /\
      invocations s2 = [55; 40; 10].
Proof.
  assert (Hin : In 40 (inflight pacingAfterFailure)) by (simpl; now left).
  split; [reflexivity|]. split; [exact Hin|]. split; [reflexivity|].
  destruct (recovery_ends_the_pacing_sleep defaults pacingAfterFailure
              100 false 40 true eq_refl eq_refl Hin)
    as (s1 & Hstep & Hsettled & Hsend).
  exists s1. split; [exact Hstep|]. split; [exact Hsettled|].
  exact (Hsend Hsettled).
Defined.

(** ** The pending state *)

Section Pending.

Variable delegate : ConnectionLoopDelegate.

Lemma quiet_step (s s' : Loop) (e : Event) :
  awaiting s = AwaitPending None ->
  pendingResolver s = false ->
  quietEvent e = true ->
  step delegate s e = Some s' ->
  awaiting s' = AwaitPending None /\ pendingResolver s' = false /\
  invocations s' = invocations s.
Proof.
  intros Ha Hp He Hstep.
  destruct e as [| |ms| |begun outcome]; try discriminate; simpl in *.
  - destruct (ms <? 0); [discriminate|]. injection Hstep as <-. now simpl.
  - unfold settled in Hstep. rewrite Ha, Hp in Hstep. discriminate.
  - subst outcome.
    destruct (removeFirst begun (inflight s)) as [rest|]; [|discriminate].
    injection Hstep as <-.
    destruct s as [c p w records d l n a flight nw log]. simpl in *.
    subst a p. unfold sendSettled, connectionAvailable, resolveRecover.
    simpl. destruct c; [now simpl|].
    destruct (recovered _), w; now simpl.
Qed.

(** X13: a loop in the pending state, without watchdog and with an
    unresolved pending resolver, stays there and calls [invokeSend] no more
    as long as nobody calls [send()] and no send fails, however much time
    passes and however many sends succeed; [run] cannot resume. *)
Theorem pending_loop_waits_for_a_send
    (s : Loop) (events : list Event) (s' : Loop) :
  awaiting s = AwaitPending None ->
  pendingResolver s = false ->
  forallb quietEvent events = true ->
  exec delegate s events = Some s' ->
  awaiting s' = AwaitPending None /\
  invocations s' = invocations s /\
  step delegate s' Resume = None /\
  ~ In Resume events.
Proof.
  revert s. induction events as [|e events IH]; simpl;
    intros s Ha Hp Hall Hexec.
  - injection Hexec as <-. repeat split; [assumption| |tauto].
    unfold settled. now rewrite Ha, Hp.
  - apply andb_prop in Hall as [He Hall].
    destruct (step delegate s e) as [s1|] eqn:Hstep; [|discriminate].
    destruct (quiet_step s s1 e Ha Hp He Hstep) as (Ha1 & Hp1 & Hi1).
    destruct (IH s1 Ha1 Hp1 Hall Hexec) as (H1 & H2 & H3 & H4).
    repeat split; try assumption; [congruence|].
    intros [->|Hin]; [|contradiction].
    simpl in Hstep. unfold settled in Hstep. rewrite Ha, Hp in Hstep.
    discriminate.
Qed.

(** X14: with a watchdog of [w] ms and at least one connection allowed, a
    fresh loop on which nobody calls [send()] cannot resume before [w] ms
    have passed; when they have, it debounces and then calls [invokeSend],
    [w] ms and the debounce delay after its creation. *)
Theorem watchdog_starts_a_send (t w ms : Z) :
  watchdogTimer delegate = Some w ->
  0 < theMaxConnections delegate ->
  0 <= ms < w ->
  exec delegate (newConnectionLoop delegate t) [Elapse ms; Resume] = None /\
  exists s,
    exec delegate (newConnectionLoop delegate t)
      [Elapse w; Resume; Elapse (Z.max 0 (theDebounceDelay delegate)); Resume]
    = Some s /\
    invocations s = [t + w + Z.max 0 (theDebounceDelay delegate)] /\
    inflight s = invocations s.
Proof.
  intros Hw Hm Hms.
  unfold newConnectionLoop, run, loopHead. simpl. rewrite Hw. simpl.
  unfold sleep, settled. simpl.
  destruct (ms <? 0) eqn:E1; [lia|]. simpl.
  destruct (w <? 0) eqn:E2; [lia|]. simpl.
  replace (t + Z.max 0 w <=? t + ms) with false by lia.
  replace (t + Z.max 0 w <=? t + w) with true by lia.
  split; [reflexivity|].
  unfold resume. simpl. unfold sleep.
  set (d := Z.max 0 (theDebounceDelay delegate)).
  destruct (d <? 0) eqn:E3; [lia|]. simpl.
  unfold debounced. simpl.
  destruct (0 >=? theMaxConnections delegate) eqn:E4; [lia|].
  unfold waitToSend. simpl. rewrite Z.leb_refl.
  eexists. split; [reflexivity|].
  unfold dispatch, loopHead. simpl. now split.
Qed.

End Pending.

Lemma pending_loop_waits_for_a_send_witness :
  forallb quietEvent [Elapse 700; SendSettled 10 true; Elapse 90000] = true /\
  exec defaults afterFirstSend [Elapse 700; SendSettled 10 true; Elapse 90000]
  = Some (mkLoop false false false [okr 700] 30 10 0 (AwaitPending None) []
            90710 [10]) /\
  step defaults
    (mkLoop false false false [okr 700] 30 10 0 (AwaitPending None) []
       90710 [10]) Resume = None.
Proof.
  split; [reflexivity|]. split; [reflexivity|].
  apply (pending_loop_waits_for_a_send defaults afterFirstSend
           [Elapse 700; SendSettled 10 true; Elapse 90000]); reflexivity.
Defined.

Lemma watchdog_starts_a_send_witness :
  watchdogTimer (mkDelegate None None (Some 60000)) = Some 60000 /\
  exec (mkDelegate None None (Some 60000))
    (newConnectionLoop (mkDelegate None None (Some 60000)) 0)
    [Elapse 59999; Resume] = None.
Proof.
  split; [reflexivity|].
  apply (watchdog_starts_a_send (mkDelegate None None (Some 60000))
           0 60000 59999); [reflexivity|reflexivity|lia].
Defined.

(** ** The delay along a run *)

Section Timeliness.

Variable delegate : ConnectionLoopDelegate.
Hypothesis someConnection : 0 < theMaxConnections delegate.

Variable t0 : Z.

Lemma removeFirst_subset (x : Z) (l rest : list Z) :
  removeFirst x l = Some rest ->
  In x l /\ forall y, In y rest -> In y l.
Proof.
  revert rest. induction l as [|z l IH]; simpl; intros rest H; [discriminate|].
  destruct (x =? z) eqn:E.
  - injection H as <-. apply Z.eqb_eq in E. subst z. split; auto.
  - destruct (removeFirst x l) as [rest'|]; [|discriminate].
    injection H as <-. destruct (IH rest' eq_refl) as (H1 & H2).
    split; [now right|]. intros y [<-|Hy]; auto.
Qed.

Lemma timely_same (s s' : Loop) :
  now s' = now s -> inflight s' = inflight s ->
  sendRecords s' = sendRecords s -> delay s' = delay s ->
  timely t0 s -> timely t0 s'.
Proof. unfold timely. now intros -> -> -> ->. Qed.

Lemma timely_dispatch (s : Loop) :
  closed s = false -> timely t0 s -> timely t0 (dispatch delegate s).
Proof.
  intros Hc (T1 & T2 & T3 & T4). rewrite dispatch_open by assumption.
  unfold timely. simpl. repeat split; try assumption; try lia;
    try (now apply T3); try (now apply T4).
  - destruct H as [<-|H]; [assumption|now apply T2].
  - destruct H as [<-|H]; [lia|now apply T2].
Qed.

Lemma timely_waitToSend (s : Loop) :
  closed s = false -> timely t0 s -> timely t0 (waitToSend delegate s).
Proof.
  intros Hc Ht. unfold waitToSend.
  destruct (_ || _); [|now apply timely_dispatch].
  rewrite pace_open by assumption. cbv zeta.
  set (result := computeDelayAndUpdateDurations _ _ _).
  assert (Hpaced : timely t0 (set_sendRecords (snd result)
                                (set_delay (fst result) s))).
  { destruct Ht as (T1 & T2 & T3 & T4). unfold timely. simpl.
    assert (Hsub : forall r, In r (snd result) -> In r (sendRecords s)).
    { intros r. subst result.
      destruct (computeDelay_records (delay s) (theMaxConnections delegate)
                  (sendRecords s)) as [-> | ->]; [tauto|apply in_pruned]. }
    repeat split; try assumption; try (now apply T2);
      try (now apply T3, Hsub).
    - specialize (T4 H).
      pose proof (delay_stays_in_range (delay s) (theMaxConnections delegate)
                    (now s - t0) (sendRecords s)) as Hrange.
      fold result in Hrange. apply Hrange; try lia; try assumption.
      intros r Hr _. now apply T3.
    - specialize (T4 H).
      pose proof (delay_stays_in_range (delay s) (theMaxConnections delegate)
                    (now s - t0) (sendRecords s)) as Hrange.
      fold result in Hrange.
      assert (0 <= fst result
              <= Z.max (delay s) (Z.max 60000 (now s - t0))).
      { apply Hrange; try lia; try assumption.
        intros r Hr _. now apply T3. }
      lia. }
  destruct (fst result >? now s - lastSendTime s).
  - revert Hpaced. apply timely_same; reflexivity.
  - now apply timely_dispatch.
Qed.

Lemma timely_step (s s' : Loop) (e : Event) :
  timely t0 s -> step delegate s e = Some s' -> timely t0 s'.
Proof.
  intros Ht Hstep. destruct e as [| |ms| |begun outcome]; simpl in Hstep.
  - injection Hstep as <-. revert Ht. apply timely_same; reflexivity.
  - injection Hstep as <-. revert Ht. apply timely_same; reflexivity.
  - destruct (ms <? 0) eqn:Hms; [discriminate|]. injection Hstep as <-.
    apply Z.ltb_ge in Hms.
    destruct Ht as (T1 & T2 & T3 & T4). unfold timely. simpl.
    repeat split; intros;
      try match goal with
          | H : In _ (inflight s) |- _ => specialize (T2 _ H)
          end;
      try match goal with
          | H : In _ (sendRecords s) |- _ => specialize (T3 _ H)
          end;
      try (assert (H' : now s - t0 < 2 ^ 31) by lia; specialize (T4 H'));
      lia.
  - destruct (settled s); [|discriminate]. injection Hstep as <-.
    unfold resume.
    destruct (closed s) eqn:Hc.
    + destruct (awaiting s); revert Ht; apply timely_same; reflexivity.
    + destruct (awaiting s).
      * revert Ht. apply timely_same; reflexivity.
      * unfold debounced. simpl.
        destruct (counter s >=? theMaxConnections delegate).
        -- revert Ht. apply timely_same; reflexivity.
        -- apply timely_waitToSend; [assumption|].
           revert Ht. apply timely_same; reflexivity.
      * now apply timely_waitToSend.
      * now apply timely_dispatch.
      * assumption.
  - destruct (removeFirst begun (inflight s)) as [rest|] eqn:Hrm;
      [|discriminate].
    injection Hstep as <-.
    destruct (removeFirst_subset _ _ _ Hrm) as (Hin & Hsub).
    destruct Ht as (T1 & T2 & T3 & T4).
    destruct s as [c p w records d lst n a flight nw log]. simpl in *.
    unfold sendSettled. simpl. destruct c.
    + unfold timely. simpl. repeat split; try assumption;
        try (now apply T2, Hsub); try (now apply T3); now apply T4.
    + pose proof (T2 _ Hin) as Hbegun.
      unfold connectionAvailable, resolveRecover, JS.push. simpl.
      destruct (recovered _), a as [wd|wake|r|wake r|], w, outcome;
        simpl; unfold timely; simpl;
        (repeat split; try assumption; try (now apply T2, Hsub);
         try (now apply T4);
         match goal with
         | H : In _ (_ ++ _) |- _ =>
             apply in_app_or in H as [H|[<-|[]]];
               [specialize (T3 _ H); lia|simpl; lia]
         end).
Qed.

Lemma timely_exec (events : list Event) :
  forall s s' : Loop,
    timely t0 s -> exec delegate s events = Some s' -> timely t0 s'.
Proof.
  induction events as [|e events IH]; simpl; intros s s' Hs Hexec.
  - now injection Hexec as <-.
  - destruct (step delegate s e) as [s1|] eqn:Hstep; [|discriminate].
    eapply IH; [|exact Hexec]. eapply timely_step; eassumption.
Qed.

Lemma timely_new : timely t0 (newConnectionLoop delegate t0).
Proof.
  unfold newConnectionLoop, run, loopHead, timely. simpl.
  repeat split; try lia; try contradiction; unfold MIN_DELAY; lia.
Qed.

End Timeliness.

(** X15: in every state that a loop with at least one connection reaches
    within 2^31 ms of its creation, the delay is not negative and at most
    the larger of 60_000 ms and the age of the loop, and no recorded
    duration is negative or longer than that age. *)
Theorem delay_is_never_negative
    (delegate : ConnectionLoopDelegate) (t0 : Z) (events : list Event)
    (s : Loop) :
  0 < theMaxConnections delegate ->
  exec delegate (newConnectionLoop delegate t0) events = Some s ->
  now s - t0 < 2 ^ 31 ->
  0 <= delay s <= Z.max 60000 (now s - t0) /\
  forall r, In r (sendRecords s) -> 0 <= duration r <= now s - t0.
Proof.
  intros Hm Hexec Hage.
  destruct (timely_exec delegate Hm t0 events _ _ (timely_new delegate t0)
              Hexec) as (_ & _ & T3 & T4).
  split; [exact (T4 Hage)|exact T3].
Qed.

Lemma delay_is_never_negative_witness :
  exec defaults (newConnectionLoop defaults 0)
    (threeParallelFailures ++ [Resume])
  = Some (mkLoop false false false [failed 65; failed 35; failed 5] 60 130 1
            (AwaitPending None) [130] 130 [130; 70; 40; 10]) /\
  0 <= 60 <= Z.max 60000 (130 - 0).
Proof.
  split; [reflexivity|].
  apply (delay_is_never_negative defaults 0
           (threeParallelFailures ++ [Resume])
           (mkLoop false false false [failed 65; failed 35; failed 5] 60 130 1
              (AwaitPending None) [130] 130 [130; 70; 40; 10]));
    reflexivity.
Defined.

(** ** The median and the order of the values *)

Lemma string_compare_trans (s1 : string) :
  forall s2 s3 : string,
    String.compare s1 s2 <> Gt -> String.compare s2 s3 <> Gt ->
    String.compare s1 s3 <> Gt.
Proof.
  induction s1 as [|a s1 IH]; intros [|b s2] [|c s3]; simpl;
    try congruence.
  unfold Ascii.compare.
  destruct (N.compare_spec (N_of_ascii a) (N_of_ascii b)),
           (N.compare_spec (N_of_ascii b) (N_of_ascii c)),
           (N.compare_spec (N_of_ascii a) (N_of_ascii c));
    try congruence; try lia.
  apply IH.
Qed.

Lemma sortCompareLe_trans (x y z : Z) :
  JS.sortCompareLe x y = true -> JS.sortCompareLe y z = true ->
  JS.sortCompareLe x z = true.
Proof.
  unfold JS.sortCompareLe, String.leb. intros H1 H2.
  pose proof (string_compare_trans (JS.toString x) (JS.toString y)
                (JS.toString z)) as H.
  destruct (String.compare (JS.toString x) (JS.toString y));
    destruct (String.compare (JS.toString y) (JS.toString z));
    destruct (String.compare (JS.toString x) (JS.toString z));
    try reflexivity; try discriminate; exfalso; apply H; congruence.
Qed.

Lemma toString_inj (x y : Z) : JS.toString x = JS.toString y -> x = y.
Proof.
  unfold JS.toString. intros H. apply to_int_inj.
  assert (Hnil : forall n, Z.to_int n <> Decimal.Pos Decimal.Nil /\
                           Z.to_int n <> Decimal.Neg Decimal.Nil).
  { intros [|p|p]; simpl; split; try discriminate;
      intros [= E]; now apply Unsigned.to_uint_nonnil in E. }
  destruct (Hnil x) as (Hx1 & Hx2). destruct (Hnil y) as (Hy1 & Hy2).
  pose proof (NilZero.isi _ Hx1 Hx2) as Ex.
  pose proof (NilZero.isi _ Hy1 Hy2) as Ey.
  rewrite H in Ex. congruence.
Qed.

Lemma sortCompareLe_antisym (x y : Z) :
  JS.sortCompareLe x y = true -> JS.sortCompareLe y x = true -> x = y.
Proof.
  unfold JS.sortCompareLe. intros H1 H2.
  apply toString_inj. now apply String.leb_antisym.
Qed.

Lemma sorted_permutation_unique (l1 : list Z) :
  forall l2 : list Z,
    StronglySorted (fun a b => JS.sortCompareLe a b = true) l1 ->
    StronglySorted (fun a b => JS.sortCompareLe a b = true) l2 ->
    Permutation l1 l2 ->
    l1 = l2.
Proof.
  induction l1 as [|x l1 IH]; intros l2 H1 H2 Hperm.
  - now apply Permutation_nil in Hperm.
  - destruct l2 as [|y l2].
    { apply Permutation_sym, Permutation_nil in Hperm. discriminate. }
    inversion H1 as [|? ? Hs1 Hx]. inversion H2 as [|? ? Hs2 Hy]. subst.
    assert (Hxy : x = y).
    { assert (Hin1 : In x (y :: l2))
        by (eapply Permutation_in; [exact Hperm|now left]).
      assert (Hin2 : In y (x :: l1))
        by (eapply Permutation_in;
            [apply Permutation_sym; exact Hperm|now left]).
      rewrite Forall_forall in Hx, Hy.
      destruct Hin1 as [->|Hin1]; [reflexivity|].
      destruct Hin2 as [->|Hin2]; [reflexivity|].
      apply sortCompareLe_antisym; [now apply Hx|now apply Hy]. }
    subst y. f_equal. apply IH; try assumption.
    now apply Permutation_cons_inv in Hperm.
Qed.

Lemma sort_strongly_sorted (l : list Z) :
  StronglySorted (fun a b => JS.sortCompareLe a b = true) (JS.sort l).
Proof.
  apply Sorted_StronglySorted; [|apply sort_sorted].
  intros x y z. apply sortCompareLe_trans.
Qed.

(** X16: the median depends on the values and not on their order in the
    array: two arrays with the same elements, each as many times in the one
    as in the other, have the same median. *)
Theorem median_of_permutation (values values' : list Z) :
  Permutation values values' -> median values = median values'.
Proof.
  intros Hperm.
  assert (Hsort : JS.sort values = JS.sort values').
  { apply sorted_permutation_unique; try apply sort_strongly_sorted.
    rewrite sort_permutation, Hperm. symmetry. apply sort_permutation. }
  unfold median. now rewrite Hsort.
Qed.

Lemma median_of_permutation_witness :
  Permutation [120; 8; 35] [35; 120; 8] /\
  median [120; 8; 35] = median [35; 120; 8].
Proof.
  assert (H : Permutation [120; 8; 35] [35; 120; 8]).
  { apply Permutation_sym, (Permutation_cons_app [120; 8] [] 35).
    rewrite app_nil_r. reflexivity. }
  split; [exact H|].
  apply (median_of_permutation [120; 8; 35] [35; 120; 8]). exact H.
Defined.
